(** * The quiz session engine of quiz.py, embedded and verified

    The development follows the layout of [src/quiz/quiz.py]:
    the [Question] record and its loader, the attempt log kept by [DB],
    and the [QuizEngine] state machine.  Methods that mutate [self] and may
    raise are written in a small state-and-exception monad, so that the
    state an exception leaves behind is the state at the [raise]. *)

From Stdlib Require Import ZArith QArith Qround Qminmax Qabs Ascii String List.
From Stdlib Require Import Permutation Lia Bool.
From Stdlib Require Floats.SpecFloat.
From stdpp Require Import base list.
Import ListNotations.

Local Open Scope string_scope.
Local Open Scope Z_scope.

(** ** Python values and exceptions *)

Module Py.

(** The exceptions the modelled code can raise. *)
Inductive exn : Type :=
| FileNotFoundError (msg : string)
| JSONDecodeError
| KeyError (key : string)
| ValueError (msg : string)
| IndexError
| OverflowError
| OperationalError
| DataError.

Inductive outcome (A : Type) : Type :=
| Returns (a : A)
| Raises (e : exn).
Arguments Returns {A} a.
Arguments Raises {A} e.

Definition raised {A} (o : outcome A) : bool :=
  match o with Returns _ => false | Raises _ => true end.

(** [len(l)] as a Python int. *)
Definition len {A} (l : list A) : Z := Z.of_nat (length l).

(** [l[i]]: a negative index counts from the end, anything out of range
    raises [IndexError]. *)
Definition getitem {A} (l : list A) (i : Z) : outcome A :=
  let j := if i <? 0 then len l + i else i in
  if (j <? 0) || (len l <=? j) then Raises IndexError
  else match l !! Z.to_nat j with
       | Some a => Returns a
       | None => Raises IndexError
       end.

(** [l[:stop]]: a negative [stop] counts from the end; the bounds are
    clipped to the list, never an error. *)
Definition slice_to {A} (l : list A) (stop : Z) : list A :=
  let j := if stop <? 0 then len l + stop else stop in
  take (Z.to_nat j) l.

(** [a == b] between an [Optional[str]] and a [str]. *)
Definition eq_opt_str (a : option string) (b : string) : bool :=
  match a with
  | Some s => String.eqb s b
  | None => false
  end.

(** [int(x)] of a number: truncation toward zero. *)
Definition int (x : Q) : Z := Z.quot (Qnum x) (Z.pos (Qden x)).

(** [max(0, x)]: the first argument unless the second is strictly
    greater. *)
Definition max0 (x : Q) : Q :=
  match (0 ?= x)%Q with
  | Lt => x
  | _ => 0%Q
  end.

End Py.

(** ** Python floats

    A Python [float] is an IEEE 754 binary64 number.  A finite one is
    written here as the rational number it stands for, so a clock reading
    is a rational for which [is_double] holds; the result of an operation
    may also be an infinity.  Operations round to nearest, ties to even.
    Rationals that are no double stand for no float at all: [sub] leaves
    their difference as it is. *)

Module Float.

Import Py.

(** Every double is a whole multiple of [2^-1074], the smallest positive
    one; [scale] expresses a number in that unit. *)
Definition scale : Z := 2 ^ 1074.

(** The nearest integer, a tie going to the even one. *)
Definition rne (x : Q) : Z :=
  let f := Qfloor x in
  match (x - inject_Z f ?= 1 # 2)%Q with
  | Lt => f
  | Eq => if Z.even f then f else f + 1
  | Gt => f + 1
  end.

(** For [s >= 0] in units of [2^-1074]: the doubles next to [s] are the
    multiples of [2 ^ shift s]; 53 significant bits, and never finer than
    the unit itself. *)
Definition shift (s : Q) : Z := Z.max 0 (Z.log2 (Qfloor s) - 52).

Definition round_scaled (s : Q) : Z :=
  let k := shift s in rne (s / inject_Z (2 ^ k)) * 2 ^ k.

(** The double nearest to [x], were the exponent range unbounded above. *)
Definition round64 (x : Q) : Q :=
  match (0 ?= x)%Q with
  | Lt => Qred (inject_Z (round_scaled (x * inject_Z scale)) / inject_Z scale)
  | Eq => 0%Q
  | Gt =>
      Qred (- (inject_Z (round_scaled (- x * inject_Z scale))
               / inject_Z scale))
  end.

(** [2^1024], where the finite doubles end. *)
Definition huge : Q := inject_Z (2 ^ 1024).

(** The result of an operation on finite floats. *)
Inductive value : Type :=
| Finite (q : Q)
| PosInf
| NegInf.

Definition overflow (q : Q) : value :=
  if Qle_bool huge q then PosInf
  else if Qle_bool q (- huge) then NegInf
  else Finite q.

(** [x] is the value of a finite double. *)
Definition is_double (x : Q) : bool :=
  Qeq_bool (round64 x) x && negb (Qle_bool huge (Qabs x)).

(** [a - b]: the exact difference, rounded. *)
Definition sub (a b : Q) : value :=
  if is_double a && is_double b then overflow (round64 (a - b))
  else Finite (a - b).

(** [max(0, v)]: the int [0] unless the float is strictly greater. *)
Definition max0 (v : value) : value :=
  match v with
  | Finite q => Finite (Py.max0 q)
  | PosInf => PosInf
  | NegInf => Finite 0%Q
  end.

(** [int(v)]: truncation toward zero; an infinity raises
    [OverflowError]. *)
Definition int (v : value) : outcome Z :=
  match v with
  | Finite q => Returns (Py.int q)
  | PosInf | NegInf => Raises OverflowError
  end.

(** The rational a finite float of [SpecFloat], the reference definition
    of binary64 arithmetic, stands for. *)
Definition of_spec (f : SpecFloat.spec_float) : value :=
  match f with
  | SpecFloat.S754_zero _ => Finite 0%Q
  | SpecFloat.S754_finite s m e =>
      let v :=
        if 0 <=? e then inject_Z (Z.pos m * 2 ^ e)
        else (inject_Z (Z.pos m) / inject_Z (2 ^ (- e)))%Q in
      Finite (Qred (if s then (- v)%Q else v))
  | SpecFloat.S754_infinity false => PosInf
  | SpecFloat.S754_infinity true => NegInf
  | SpecFloat.S754_nan => Finite 0%Q
  end.

(** The binary64 float with value [m * 2^e]. *)
Definition spec (m e : Z) : SpecFloat.spec_float :=
  SpecFloat.binary_normalize 53 1024 m e false.

(** Two results are the same float. *)
Definition same (v w : value) : bool :=
  match v, w with
  | Finite p, Finite q => Qeq_bool p q
  | PosInf, PosInf => true
  | NegInf, NegInf => true
  | _, _ => false
  end.

(** [sub] and the reference subtraction [SFsub] give the same float for
    the doubles [ma * 2^ea] and [mb * 2^eb]. *)
Definition agrees (ma ea mb eb : Z) : bool :=
  match of_spec (spec ma ea), of_spec (spec mb eb) with
  | Finite a, Finite b =>
      is_double a && is_double b
      && same (sub a b)
           (of_spec (SpecFloat.SFsub 53 1024 (spec ma ea) (spec mb eb)))
  | _, _ => false
  end.

End Float.

(** ** [random.Random]

    The generator is represented by the raw draws it is going to produce;
    [randbelow n] consumes one draw and reduces it into [range(n)], which
    is all that [shuffle] asks of the generator. *)

Module Random.

Import Py.

Record t : Type := { tape : list nat }.

Definition randbelow (n : nat) (g : t) : nat * t :=
  match tape g with
  | [] => (0%nat, g)
  | d :: ds => ((d mod n)%nat, {| tape := ds |})
  end.

(** [x[i], x[j] = x[j], x[i]].  Both reads happen before both writes,
    and an index outside the list raises [IndexError]. *)
Definition swap {A} (x : list A) (i j : nat) : outcome (list A) :=
  match x !! i, x !! j with
  | Some xi, Some xj => Returns (<[j := xi]> (<[i := xj]> x))
  | _, _ => Raises IndexError
  end.

(** The body of [shuffle], for [i] running from its first argument down
    to 1: [j = randbelow(i + 1)], then exchange [x[i]] and [x[j]]. *)
Fixpoint shuffle_from {A} (i : nat) (g : t) (x : list A)
  : outcome (list A) * t :=
  match i with
  | O => (Returns x, g)
  | S i' =>
      let '(j, g') := randbelow (i + 1) g in
      match swap x i j with
      | Returns x' => shuffle_from i' g' x'
      | Raises err => (Raises err, g')
      end
  end.

(** [for i in reversed(range(1, len(x)))]. *)
Definition shuffle {A} (g : t) (x : list A) : outcome (list A) * t :=
  shuffle_from (length x - 1) g x.

End Random.

(** ** Data model *)

Module Question.

Record t : Type := {
  category : string;
  question : string;
  options : list string;
  answer : string;
  difficulty : string
}.

End Question.

(** ** Loading the question bank *)

Module Loader.

Import Py.

(** One question object of the JSON source, seen through the keys the
    loader reads: a key is either absent or carries a value of the type
    the [Question] dataclass declares for it. *)
Record item : Type := {
  j_question : option string;
  j_options : option (list string);
  j_answer : option string;
  j_difficulty : option string
}.

(** The decoded document: a dict from category name to a list of question
    objects, in the order [dict.items()] yields them. *)
Definition bank : Type := list (string * list item).

(** What [json.load] makes of a file: the decoded bank, or a decoding
    error. *)
Inductive content : Type :=
| Json (raw : bank)
| NotJson.

(** The part of the process environment the loader looks at. *)
Record env : Type := {
  meipass : option string;      (* [sys._MEIPASS], if set *)
  cwd : string;                 (* [os.path.abspath(".")] *)
  frozen : bool;                (* [getattr(sys, "frozen", False)] *)
  executable_dir : string;      (* [os.path.dirname(sys.executable)] *)
  module_dir : string;          (* [os.path.dirname(__file__)] *)
  files : string -> option content   (* the regular files, by path *)
}.

Definition starts_with_slash (s : string) : bool :=
  match s with
  | String c _ => Ascii.eqb c "/"%char
  | EmptyString => false
  end.

Fixpoint ends_with_slash (s : string) : bool :=
  match s with
  | EmptyString => false
  | String c EmptyString => Ascii.eqb c "/"%char
  | String _ s' => ends_with_slash s'
  end.

(** [os.path.join(a, b)] on a POSIX system. *)
Definition join (a b : string) : string :=
  if starts_with_slash b then b
  else if String.eqb a "" || ends_with_slash a then a ++ b
  else a ++ "/" ++ b.

Definition resource_path (v : env) (rel_path : string) : string :=
  match meipass v with
  | Some base => join base rel_path
  | None => join (cwd v) rel_path
  end.

Definition isfile (v : env) (p : string) : bool :=
  match files v p with Some _ => true | None => false end.

(** Sequencing of steps that may raise. *)
Definition bind {A B} (o : outcome A) (k : A -> outcome B) : outcome B :=
  match o with
  | Returns a => k a
  | Raises x => Raises x
  end.

Declare Scope load_scope.
Notation "x <- m ;; k" := (bind m (fun x => k))
  (at level 100, m at next level, right associativity) : load_scope.
Local Open Scope load_scope.

(** [q[key]] on a dict. *)
Definition subscript {A} (key : string) (field : option A) : outcome A :=
  match field with
  | Some a => Returns a
  | None => Raises (KeyError key)
  end.

(** [q.get(key, default)]. *)
Definition get {A} (field : option A) (default : A) : A :=
  match field with
  | Some a => a
  | None => default
  end.

(** The call [Question(category=..., question=q["question"], ...)]; its
    arguments are evaluated left to right. *)
Definition make_question (category : string) (q : item)
  : outcome Question.t :=
  question <- subscript "question" (j_question q) ;;
  options <- subscript "options" (j_options q) ;;
  answer <- subscript "answer" (j_answer q) ;;
  Returns {| Question.category := category;
             Question.question := question;
             Question.options := options;
             Question.answer := answer;
             Question.difficulty := get (j_difficulty q) "Easy" |}.

(** The inner loop, appending to [out]. *)
Fixpoint load_items (category : string) (items : list item)
    (out : list Question.t) : outcome (list Question.t) :=
  match items with
  | [] => Returns out
  | q :: rest =>
      x <- make_question category q ;;
      load_items category rest (out ++ [x])
  end.

(** The outer loop over [raw.items()]. *)
Fixpoint load_bank (raw : bank) (out : list Question.t)
  : outcome (list Question.t) :=
  match raw with
  | [] => Returns out
  | (category, items) :: rest =>
      out' <- load_items category items out ;;
      load_bank rest out'
  end.

(** The path [load_questions] ends up opening, if there is one. *)
Definition locate (v : env) (path : string) : option string :=
  let candidate := resource_path v path in
  if isfile v candidate then Some candidate
  else
    let base_dir := if frozen v then executable_dir v else module_dir v in
    let alt := join base_dir path in
    if isfile v alt then Some alt else None.

(** [load_questions]; [open] itself raises [FileNotFoundError] on a path
    that is no file. *)
Definition load_questions (v : env) (path : string)
  : outcome (list Question.t) :=
  match locate v path with
  | None => Raises (FileNotFoundError (path ++ " not found"))
  | Some candidate =>
      match files v candidate with
      | Some (Json raw) => load_bank raw []
      | Some NotJson => Raises JSONDecodeError
      | None => Raises (FileNotFoundError candidate)
      end
  end.

(** *** The records of a bank *)

(** Every question object of the document with its category, in loading
    order. *)
Definition items_of (raw : bank) : list (string * item) :=
  flat_map (fun ci => map (pair (fst ci)) (snd ci)) raw.

(** The three keys the loader subscripts are all present. *)
Definition complete (q : item) : bool :=
  match j_question q, j_options q, j_answer q with
  | Some _, Some _, Some _ => true
  | _, _, _ => false
  end.

(** The answer of a question object is one of its options. *)
Definition answer_listed (q : item) : Prop :=
  exists a o, j_answer q = Some a /\ j_options q = Some o /\ In a o.

(** [x] is the [Question] built from the object [q] of category [c]. *)
Definition loaded (cq : string * item) (x : Question.t) : Prop :=
  Question.category x = fst cq /\
  j_question (snd cq) = Some (Question.question x) /\
  j_options (snd cq) = Some (Question.options x) /\
  j_answer (snd cq) = Some (Question.answer x) /\
  Question.difficulty x = get (j_difficulty (snd cq)) "Easy".

(** The loading contract in the words of the specification: a source that
    is not found is an error, and so is a source with a record that lacks
    a required field or whose answer is not among its options. *)
Definition load_as_specified (v : env) (path : string) : Prop :=
  (locate v path = None ->
   exists msg, load_questions v path = Raises (FileNotFoundError msg)) /\
  (forall candidate raw,
      locate v path = Some candidate ->
      files v candidate = Some (Json raw) ->
      Exists (fun cq => complete (snd cq) = false \/
                        ~ answer_listed (snd cq)) (items_of raw) ->
      raised (load_questions v path) = true).

(** The first of the keys "question", "options", "answer" that a question
    object lacks, in the order the loader subscripts them. *)
Definition first_missing (q : item) : option string :=
  match j_question q, j_options q, j_answer q with
  | None, _, _ => Some "question"
  | Some _, None, _ => Some "options"
  | Some _, Some _, None => Some "answer"
  | Some _, Some _, Some _ => None
  end.

End Loader.

(** ** Persistence *)

Module DB.

Import Py.

(** A row of the [attempts] table. *)
Record row : Type := {
  id : Z;
  timestamp : string;
  category : string;
  difficulty : string;
  score : Z;
  total : Z;
  duration_seconds : Z
}.

(** The table, rows in insertion order, and the counter SQLite keeps for
    an [AUTOINCREMENT] key (the largest key ever handed out). *)
Record t : Type := {
  attempts : list row;
  sequence : Z
}.

(** The database [DB()] finds when the file did not exist before. *)
Definition fresh : t := {| attempts := []; sequence := 0 |}.

(** The key of the next inserted row: one more than every key in the
    table and than the counter. *)
Definition next_id (db : t) : Z :=
  1 + fold_right (fun r m => Z.max (id r) m) (sequence db) (attempts db).

(** *** What SQLite can hold *)

(** An [INTEGER] is a signed 64-bit number. *)
Definition max_int64 : Z := 2 ^ 63 - 1.
Definition min_int64 : Z := - 2 ^ 63.
Definition int64 (v : Z) : bool := (min_int64 <=? v) && (v <=? max_int64).

(** The length limit of a string and of a whole row
    ([SQLITE_MAX_LENGTH]), and the longest string the [sqlite3] module
    hands over ([INT_MAX]). *)
Definition max_length : Z := 1000000000.
Definition int_max : Z := 2 ^ 31 - 1.

(** The size of a text value: the bytes of its UTF-8 encoding, which is
    what a [string] holds here. *)
Definition bytes (s : string) : Z := Z.of_nat (String.length s).

(** Binding a [str] parameter. *)
Definition bind_text (s : string) : outcome unit :=
  if int_max <? bytes s then Raises OverflowError
  else if max_length <? bytes s then Raises DataError
  else Returns tt.

(** Binding an [int] parameter. *)
Definition bind_int (v : Z) : outcome unit :=
  if int64 v then Returns tt else Raises OverflowError.

(** The bytes of a variable-length integer of the record format. *)
Definition varint_len (v : Z) : Z :=
  if v <? 2 ^ 7 then 1
  else if v <? 2 ^ 14 then 2
  else if v <? 2 ^ 21 then 3
  else if v <? 2 ^ 28 then 4
  else if v <? 2 ^ 35 then 5
  else if v <? 2 ^ 42 then 6
  else if v <? 2 ^ 49 then 7
  else if v <? 2 ^ 56 then 8
  else 9.

(** The bytes an integer takes in the body of a record. *)
Definition int_bytes (v : Z) : Z :=
  if (v =? 0) || (v =? 1) then 0
  else if (- 2 ^ 7 <=? v) && (v <? 2 ^ 7) then 1
  else if (- 2 ^ 15 <=? v) && (v <? 2 ^ 15) then 2
  else if (- 2 ^ 23 <=? v) && (v <? 2 ^ 23) then 3
  else if (- 2 ^ 31 <=? v) && (v <? 2 ^ 31) then 4
  else if (- 2 ^ 47 <=? v) && (v <? 2 ^ 47) then 6
  else 8.

(** The size of the stored record of a row: a header with its own length
    and one type code per column (the key column holds no value, a text of
    [n] bytes has the code [2 n + 13], an integer a one-byte code), then
    the texts and the integers. *)
Definition record_size (ts category difficulty : string)
    (score total duration_seconds : Z) : Z :=
  let codes :=
    1 + varint_len (2 * bytes ts + 13)
      + varint_len (2 * bytes category + 13)
      + varint_len (2 * bytes difficulty + 13) + 3 in
  (1 + codes)
  + (bytes ts + bytes category + bytes difficulty
     + int_bytes score + int_bytes total + int_bytes duration_seconds).

(** Sequencing of steps that may raise. *)
Definition bind {A B} (o : outcome A) (k : A -> outcome B) : outcome B :=
  match o with
  | Returns a => k a
  | Raises x => Raises x
  end.

Declare Scope db_scope.
Notation "m ;; k" := (bind m (fun _ => k))
  (at level 100, right associativity) : db_scope.
Local Open Scope db_scope.

(** What stands in the way of the [INSERT] of [save_attempt], if
    anything: the parameters are bound in order, then the statement runs,
    taking a key first and building the record next. *)
Definition insert_check (ts category difficulty : string)
    (score total duration_seconds : Z) (db : t) : outcome unit :=
  bind_text ts ;;
  bind_text category ;;
  bind_text difficulty ;;
  bind_int score ;;
  bind_int total ;;
  bind_int duration_seconds ;;
  (if max_int64 <? next_id db then Raises OperationalError
   else Returns tt) ;;
  (if max_length
        <? record_size ts category difficulty score total duration_seconds
   then Raises DataError else Returns tt).

(** [save_attempt]; [ts] is the string [time.strftime] returns.  When the
    [INSERT] fails nothing is stored. *)
Definition save_attempt (ts category difficulty : string)
    (score total duration_seconds : Z) (db : t) : outcome unit * t :=
  match insert_check ts category difficulty score total duration_seconds db
  with
  | Raises x => (Raises x, db)
  | Returns _ =>
      let r := {| id := next_id db; timestamp := ts; category := category;
                  difficulty := difficulty; score := score; total := total;
                  duration_seconds := duration_seconds |} in
      (Returns tt, {| attempts := attempts db ++ [r]; sequence := id r |})
  end.

(** [ORDER BY id DESC]. *)
Fixpoint insert_desc (r : row) (l : list row) : list row :=
  match l with
  | [] => [r]
  | x :: l' => if id x <? id r then r :: l else x :: insert_desc r l'
  end.

Definition order_by_id_desc (l : list row) : list row :=
  fold_right insert_desc [] l.

(** [LIMIT ?]: a negative bound means no bound. *)
Definition limit_rows {A} (limit : Z) (l : list A) : list A :=
  if limit <? 0 then l else take (Z.to_nat limit) l.

(** The selected columns of a row, as the tuple [fetchall] yields. *)
Definition columns (r : row) : string * string * string * Z * Z * Z :=
  (timestamp r, category r, difficulty r, score r, total r,
   duration_seconds r).

(** The rows the [SELECT] of [recent_attempts] yields for a limit it
    accepts. *)
Definition select_recent (limit : Z) (db : t)
  : list (string * string * string * Z * Z * Z) :=
  map columns (limit_rows limit (order_by_id_desc (attempts db))).

(** [recent_attempts]: the limit is bound as an integer parameter. *)
Definition recent_attempts (limit : Z) (db : t)
  : outcome (list (string * string * string * Z * Z * Z)) :=
  bind_int limit ;; Returns (select_recent limit db).


(** A record can be stored in [db]: its integers are 64-bit, its texts and
    its row are within the length limit, and a key is left. *)
Definition storable (db : t) (r : string * string * string * Z * Z * Z)
  : bool :=
  match r with
  | (ts, c, dif, s, n, dur) =>
      (bytes ts <=? max_length) && (bytes c <=? max_length)
      && (bytes dif <=? max_length)
      && int64 s && int64 n && int64 dur
      && (next_id db <=? max_int64)
      && (record_size ts c dif s n dur <=? max_length)
  end.



End DB.

(** ** Quiz logic *)

Module QuizEngine.

Import Py.

(** The attributes of an engine.  [index] and [score] are Python ints.
    [started_at] is a clock reading in seconds, a float written as the
    rational it stands for (see [Float]). *)
Record t : Type := {
  questions_all : list Question.t;
  rng : Random.t;
  pool : list Question.t;
  order : list nat;
  index : Z;
  score : Z;
  started_at : Q;
  category : string;
  difficulty : string
}.

(** Assignments to the attributes of [self]. *)
Definition with_rng (v : Random.t) (e : t) : t :=
  {| questions_all := questions_all e; rng := v; pool := pool e;
     order := order e; index := index e; score := score e;
     started_at := started_at e; category := category e;
     difficulty := difficulty e |}.
Definition with_pool (v : list Question.t) (e : t) : t :=
  {| questions_all := questions_all e; rng := rng e; pool := v;
     order := order e; index := index e; score := score e;
     started_at := started_at e; category := category e;
     difficulty := difficulty e |}.
Definition with_order (v : list nat) (e : t) : t :=
  {| questions_all := questions_all e; rng := rng e; pool := pool e;
     order := v; index := index e; score := score e;
     started_at := started_at e; category := category e;
     difficulty := difficulty e |}.
Definition with_index (v : Z) (e : t) : t :=
  {| questions_all := questions_all e; rng := rng e; pool := pool e;
     order := order e; index := v; score := score e;
     started_at := started_at e; category := category e;
     difficulty := difficulty e |}.
Definition with_score (v : Z) (e : t) : t :=
  {| questions_all := questions_all e; rng := rng e; pool := pool e;
     order := order e; index := index e; score := v;
     started_at := started_at e; category := category e;
     difficulty := difficulty e |}.
Definition with_started_at (v : Q) (e : t) : t :=
  {| questions_all := questions_all e; rng := rng e; pool := pool e;
     order := order e; index := index e; score := score e;
     started_at := v; category := category e;
     difficulty := difficulty e |}.
Definition with_category (v : string) (e : t) : t :=
  {| questions_all := questions_all e; rng := rng e; pool := pool e;
     order := order e; index := index e; score := score e;
     started_at := started_at e; category := v;
     difficulty := difficulty e |}.
Definition with_difficulty (v : string) (e : t) : t :=
  {| questions_all := questions_all e; rng := rng e; pool := pool e;
     order := order e; index := index e; score := score e;
     started_at := started_at e; category := category e;
     difficulty := v |}.

(** *** Methods as computations over [self] *)

Definition M (A : Type) : Type := t -> outcome A * t.

Definition ret {A} (a : A) : M A := fun e => (Returns a, e).
Definition raise {A} (x : exn) : M A := fun e => (Raises x, e).
Definition bind {A B} (m : M A) (k : A -> M B) : M B :=
  fun e =>
    match m e with
    | (Returns a, e') => k a e'
    | (Raises x, e') => (Raises x, e')
    end.
Definition gets {A} (f : t -> A) : M A := fun e => (Returns (f e), e).
Definition assign (f : t -> t) : M unit := fun e => (Returns tt, f e).
Definition lift {A} (o : outcome A) : M A := fun e => (o, e).

Declare Scope py_scope.
Delimit Scope py_scope with py.
Notation "x <- m ;; k" := (bind m (fun x => k))
  (at level 100, m at next level, right associativity) : py_scope.
Notation "m ;; k" := (bind m (fun _ => k))
  (at level 100, right associativity) : py_scope.
Local Open Scope py_scope.

Definition reset_state : M unit :=
  assign (with_pool []) ;;
  assign (with_order []) ;;
  assign (with_index 0) ;;
  assign (with_score 0) ;;
  assign (with_started_at 0%Q) ;;
  assign (with_category "Any") ;;
  assign (with_difficulty "Any").

(** [QuizEngine(questions, rng)]: store the arguments, then
    [reset_state()]. *)
Definition init (questions : list Question.t) (g : Random.t) : t :=
  snd (reset_state
         {| questions_all := questions; rng := g; pool := [];
            order := []; index := 0; score := 0; started_at := 0%Q;
            category := ""; difficulty := "" |}).

(** The two generator expressions of [start]. *)
Definition filter_pool (qs : list Question.t) (category difficulty : string)
  : list Question.t :=
  let pool :=
    List.filter
      (fun q => String.eqb category "Any"
                || String.eqb (Question.category q) category) qs in
  if negb (String.eqb difficulty "Any")
  then List.filter (fun q => String.eqb (Question.difficulty q) difficulty) pool
  else pool.

(** [self.rng.shuffle(indices)]. *)
Definition rng_shuffle {A} (x : list A) : M (list A) :=
  g <- gets rng ;;
  let '(r, g') := Random.shuffle g x in
  assign (with_rng g') ;;
  lift r.

Definition no_match : exn := ValueError "No questions match your filters.".

(** [start]; [now] is the value [time.time()] returns during the call. *)
Definition start (category difficulty : string) (count : Z) (now : Q)
  : M unit :=
  assign (with_category category) ;;
  assign (with_difficulty difficulty) ;;
  qs <- gets questions_all ;;
  assign (with_pool (filter_pool qs category difficulty)) ;;
  p <- gets pool ;;
  match p with
  | [] => raise no_match
  | _ :: _ =>
      let count := Z.min (Z.max 1 count) (len p) in
      indices <- rng_shuffle (seq 0 (length p)) ;;
      assign (with_order (slice_to indices count)) ;;
      assign (with_index 0) ;;
      assign (with_score 0) ;;
      assign (with_started_at now)
  end.

Definition total (e : t) : Z := len (order e).

Definition current : M Question.t :=
  p <- gets pool ;;
  o <- gets order ;;
  i <- gets index ;;
  k <- lift (getitem o i) ;;
  lift (getitem p (Z.of_nat k)).

Definition is_finished (e : t) : bool := total e <=? index e.

Definition submit (selected : option string) : M bool :=
  q <- current ;;
  let correct := eq_opt_str selected (Question.answer q) in
  (if correct then s <- gets score ;; assign (with_score (s + 1))
   else ret tt) ;;
  i <- gets index ;;
  assign (with_index (i + 1)) ;;
  ret correct.

(** [duration_seconds]; [now] is the value [time.time()] returns. *)
Definition duration_seconds (now : Q) (e : t) : outcome Z :=
  Float.int (Float.max0 (Float.sub now (started_at e))).

(** The duration as computed from the rounded difference [r] of two
    doubles. *)
Definition of_rounded (r : Q) : outcome Z :=
  Float.int (Float.max0 (Float.overflow r)).

(** The elapsed time between two clock readings, floored at 0 and cut down
    to whole seconds. *)
Definition whole_seconds (now0 now : Q) : Z := Qfloor (Qmax 0 (now - now0)).

(** *** Sessions *)

(** The engine as [reset_state] leaves it: no active session. *)
Definition idle (e : t) : Prop := snd (reset_state e) = e.

(** The counters of a session. *)
Definition session_inv (e : t) : Prop :=
  0 <= score e <= index e /\ index e <= total e.

(** The order of a session: distinct indices into the pool. *)
Definition order_inv (e : t) : Prop :=
  NoDup (order e) /\
  Forall (fun k => (k < length (pool e))%nat) (order e).

Definition session (e : t) : Prop := session_inv e /\ order_inv e.

(** [clamp(x, lo, hi)]. *)
Definition clamp (x lo hi : Z) : Z := Z.min (Z.max lo x) hi.

(** One [submit] call per element of [sels], in order; a call that raises
    leaves the state it raised in. *)
Definition submits (sels : list (option string)) (e : t) : t :=
  fold_left (fun e' sel => snd (submit sel e')) sels e.

(** A failed [start] that would leave every attribute as it found it. *)
Definition start_preserves_state (e : t) (category difficulty : string)
    (count : Z) (now : Q) : Prop :=
  raised (fst (start category difficulty count now e)) = true /\
  snd (start category difficulty count now e) = e.

(** The number of positions at which the selection equals the answer of
    the question asked there: position [i] asks [pool[order[i]]]. *)
Fixpoint tally (pool : list Question.t) (order : list nat)
    (sels : list (option string)) : Z :=
  match order, sels with
  | k :: order', sel :: sels' =>
      match pool !! k with
      | Some q => if eq_opt_str sel (Question.answer q) then 1 else 0
      | None => 0
      end + tally pool order' sels'
  | _, _ => 0
  end.

(** A question passes the category and difficulty filters of [start]. *)
Definition matches (category difficulty : string) (q : Question.t) : Prop :=
  (category = "Any" \/ Question.category q = category) /\
  (difficulty = "Any" \/ Question.difficulty q = difficulty).

(** The same test as a function: the questions [start] keeps. *)
Definition passes (category difficulty : string) (q : Question.t) : bool :=
  (String.eqb category "Any" || String.eqb (Question.category q) category)
  && (String.eqb difficulty "Any"
      || String.eqb (Question.difficulty q) difficulty).

(** Unfolds the monad operations and the attribute assignments. *)
Ltac run :=
  cbv [bind ret raise gets assign lift
       with_rng with_pool with_order with_index with_score
       with_started_at with_category with_difficulty]; cbn.

End QuizEngine.

(** ** The quiz flow of the application

    [FlashcardApp] is followed on the attributes that are not widgets: the
    log, the engine and the two countdown numbers.  Calls that only
    configure, create or destroy widgets, and the scheduling of the next
    [tick] with Tk, leave these attributes alone and are not represented;
    a handler is given the clock readings it takes as arguments. *)

Module FlashcardApp.

Import Py.

Record t : Type := {
  db : DB.t;
  engine : QuizEngine.t;
  time_limit : Z;
  time_left : Z
}.

Definition with_db (v : DB.t) (a : t) : t :=
  {| db := v; engine := engine a; time_limit := time_limit a;
     time_left := time_left a |}.
Definition with_engine (v : QuizEngine.t) (a : t) : t :=
  {| db := db a; engine := v; time_limit := time_limit a;
     time_left := time_left a |}.
Definition with_time_left (v : Z) (a : t) : t :=
  {| db := db a; engine := engine a; time_limit := time_limit a;
     time_left := v |}.

(** [finish]: read the duration, then save the attempt; [now] is the value
    of [time.time()] and [ts] the string [time.strftime] returns.  An
    exception of either call leaves the handler at once. *)
Definition finish (now : Q) (ts : string) (a : t) : outcome unit * t :=
  let e := engine a in
  match QuizEngine.duration_seconds now e with
  | Raises x => (Raises x, a)
  | Returns duration =>
      match DB.save_attempt ts (QuizEngine.category e)
              (QuizEngine.difficulty e) (QuizEngine.score e)
              (QuizEngine.total e) duration (db a) with
      | (Returns _, db') => (Returns tt, with_db db' a)
      | (Raises x, db') => (Raises x, with_db db' a)
      end
  end.

(** [display_question]: finish when the engine is finished; otherwise
    fetch the current question and rewind the countdown. *)
Definition display_question (now : Q) (ts : string) (a : t)
  : outcome unit * t :=
  if QuizEngine.is_finished (engine a) then finish now ts a
  else
    match QuizEngine.current (engine a) with
    | (Returns _, e') =>
        (Returns tt, with_time_left (time_limit a) (with_engine e' a))
    | (Raises x, e') => (Raises x, with_engine e' a)
    end.

(** [on_answer]: submit the choice, then show what comes next.  An
    exception of [submit] leaves the handler at once. *)
Definition on_answer (choice : option string) (now : Q) (ts : string)
    (a : t) : outcome unit * t :=
  match QuizEngine.submit choice (engine a) with
  | (Returns _, e') => display_question now ts (with_engine e' a)
  | (Raises x, e') => (Raises x, with_engine e' a)
  end.

(** [tick]: one second less; at zero the question is answered with
    [None]. *)
Definition tick (now : Q) (ts : string) (a : t) : outcome unit * t :=
  let a' := with_time_left (time_left a - 1) a in
  if time_left a' <=? 0 then on_answer None now ts a'
  else (Returns tt, a').

(** [_restart]: start again with the filters and the size of the session
    the engine holds; [ValueError] is caught and reported in a dialog,
    otherwise the quiz is shown, which ends in [display_question].
    [now] is read by [start], [now'] and [ts] by what follows. *)
Definition _restart (now now' : Q) (ts : string) (a : t)
  : outcome unit * t :=
  let e := engine a in
  match QuizEngine.start (QuizEngine.category e) (QuizEngine.difficulty e)
          (QuizEngine.total e) now e with
  | (Returns _, e') => display_question now' ts (with_engine e' a)
  | (Raises (ValueError _), e') => (Returns tt, with_engine e' a)
  | (Raises x, e') => (Raises x, with_engine e' a)
  end.

(** A run of answers: one [on_answer] call per event, each with the choice
    made and the clock readings available to it. *)
Definition answer_all (evs : list (option string * Q * string)) (a : t)
  : t :=
  fold_left
    (fun a' ev =>
       match ev with
       | (choice, now, ts) => snd (on_answer choice now ts a')
       end) evs a.

(** The choices of a run of answers. *)
Definition choices (evs : list (option string * Q * string))
  : list (option string) :=
  map (fun ev => fst (fst ev)) evs.

(** A run of [tick] calls, one per clock reading. *)
Definition ticks (clk : list (Q * string)) (a : t) : t :=
  fold_left (fun a' c => snd (tick (fst c) (snd c) a')) clk a.

End FlashcardApp.

(** ** Sample data *)

Module Examples.

Import Py.

Definition mk (c q : string) (o : list string) (a d : string)
  : Question.t :=
  {| Question.category := c; Question.question := q;
     Question.options := o; Question.answer := a;
     Question.difficulty := d |}.

Definition sample_questions : list Question.t :=
  [ mk "Science" "H2O is?" ["Water"; "Salt"; "Gold"; "Air"] "Water" "Easy";
    mk "Science" "Red planet?" ["Mars"; "Venus"; "Earth"; "Pluto"] "Mars"
       "Medium";
    mk "Math" "2 + 2?" ["3"; "4"; "5"; "6"] "4" "Easy";
    mk "History" "First US president?"
       ["Lincoln"; "Washington"; "Adams"; "Grant"] "Washington" "Easy" ].

Definition sample_rng : Random.t := {| Random.tape := [7; 4; 1; 9]%nat |}.

Definition sample_engine : QuizEngine.t :=
  QuizEngine.init sample_questions sample_rng.

(** A clock reading, in seconds since the epoch. *)
Definition t0 : Q := 1793700000.25%Q.

(** The engine after [start("Any", "Any", 3)] at [t0]. *)
Definition sample_session : QuizEngine.t :=
  snd (QuizEngine.start "Any" "Any" 3 t0 sample_engine).

(** A question object whose answer is none of its options. *)
Definition stray_item : Loader.item :=
  {| Loader.j_question := Some "Largest ocean?";
     Loader.j_options := Some ["Atlantic"; "Indian"];
     Loader.j_answer := Some "Pacific";
     Loader.j_difficulty := None |}.

(** A question object without an ["answer"] key. *)
Definition partial_item : Loader.item :=
  {| Loader.j_question := Some "Largest ocean?";
     Loader.j_options := Some ["Atlantic"; "Pacific"];
     Loader.j_answer := None;
     Loader.j_difficulty := Some "Hard" |}.

(** A question object with no key at all. *)
Definition headless_item : Loader.item :=
  {| Loader.j_question := None;
     Loader.j_options := None;
     Loader.j_answer := None;
     Loader.j_difficulty := None |}.

(** A process started in [/app] whose only file is [/app/questions.json],
    holding [raw]. *)
Definition app_env (raw : Loader.bank) : Loader.env :=
  {| Loader.meipass := None;
     Loader.cwd := "/app";
     Loader.frozen := false;
     Loader.executable_dir := "/usr/bin";
     Loader.module_dir := "/app/quiz";
     Loader.files := fun p =>
       if String.eqb p "/app/questions.json"
       then Some (Loader.Json raw) else None |}.

Definition sample_db : DB.t :=
  snd (DB.save_attempt "2026-01-05 10:00:00" "Math" "Easy" 2 5 31 DB.fresh).

(** Two clock readings some seventy years apart: a start one tick of the
    clock ([2^-22] s) after a whole second, and a whole second. *)
Definition late_start : Q := (1793700000 + (1 # 4194304))%Q.
Definition late_now : Q := 4000000000%Q.

(** The application showing the first question of [sample_session], with
    the default 20 seconds per question. *)
Definition sample_app : FlashcardApp.t :=
  {| FlashcardApp.db := sample_db;
     FlashcardApp.engine := sample_session;
     FlashcardApp.time_limit := 20;
     FlashcardApp.time_left := 20 |}.

End Examples.

(** * Properties *)

(** ** Binary64 rounding *)

Module FloatFacts.

Import Float.
Local Open Scope Q_scope.

Lemma rne_comp x y : x == y -> rne x = rne y.
Proof.
  intros H. unfold rne. rewrite (Qfloor_comp x y H).
  assert (Hc : (x - inject_Z (Qfloor y) ?= 1 # 2) = (y - inject_Z (Qfloor y) ?= 1 # 2)).
  { apply Qcompare_comp; [now rewrite H | reflexivity]. }
  now rewrite Hc.
Qed.

Lemma rne_bounds x : (Qfloor x <= rne x <= Qfloor x + 1)%Z.
Proof.
  unfold rne. destruct (x - inject_Z (Qfloor x) ?= 1 # 2); [|lia|lia].
  destruct (Z.even (Qfloor x)); lia.
Qed.

Lemma rne_Z n : rne (inject_Z n) = n.
Proof.
  unfold rne. rewrite Qfloor_Z.
  assert (H : (inject_Z n - inject_Z n ?= 1 # 2) = Lt).
  { apply Qlt_alt. setoid_replace (inject_Z n - inject_Z n) with 0 using relation Qeq by ring.
    reflexivity. }
  now rewrite H.
Qed.

Lemma rne_mono x y : x <= y -> (rne x <= rne y)%Z.
Proof.
  intros Hxy. pose proof (Qfloor_resp_le x y Hxy) as Hf.
  pose proof (rne_bounds x) as Bx. pose proof (rne_bounds y) as By.
  destruct (Z.eq_dec (Qfloor x) (Qfloor y)) as [E|NE]; [|lia].
  unfold rne in *. rewrite E in *.
  assert (Hd : x - inject_Z (Qfloor y) <= y - inject_Z (Qfloor y)).
  { apply Qplus_le_compat; [exact Hxy | apply Qle_refl]. }
  destruct (x - inject_Z (Qfloor y) ?= 1 # 2) eqn:Cx;
    destruct (y - inject_Z (Qfloor y) ?= 1 # 2) eqn:Cy;
    try (destruct (Z.even (Qfloor y)); lia); try lia; exfalso.
  - apply Qeq_alt in Cx. apply Qlt_alt in Cy. rewrite Cx in Hd.
    exact (Qlt_not_le _ _ Cy Hd).
  - apply Qgt_alt in Cx. apply Qeq_alt in Cy. rewrite Cy in Hd.
    exact (Qlt_not_le _ _ Cx Hd).
  - apply Qgt_alt in Cx. apply Qlt_alt in Cy.
    apply (Qlt_not_le _ _ Cx). eapply Qle_trans; [exact Hd|].
    now apply Qlt_le_weak.
Qed.

Lemma pow2_pos k : (0 <= k)%Z -> 0 < inject_Z (2 ^ k).
Proof.
  intros Hk. change 0 with (inject_Z 0). rewrite <- Zlt_Qlt.
  now apply Z.pow_pos_nonneg.
Qed.

Lemma shift_nonneg s : (0 <= shift s)%Z.
Proof. unfold shift. lia. Qed.

Lemma shift_comp s s' : s == s' -> shift s = shift s'.
Proof. intros H. unfold shift. now rewrite (Qfloor_comp s s' H). Qed.

Lemma round_scaled_comp s s' : s == s' -> round_scaled s = round_scaled s'.
Proof.
  intros H. unfold round_scaled. rewrite (shift_comp s s' H).
  f_equal. apply rne_comp. now rewrite H.
Qed.

Lemma shift_mono s s' : s <= s' -> (shift s <= shift s')%Z.
Proof.
  intros H. unfold shift. pose proof (Qfloor_resp_le s s' H) as Hf.
  pose proof (Z.log2_le_mono _ _ Hf). lia.
Qed.

(** Below the next binade. *)
Lemma floor_below s : (Qfloor s < 2 ^ (shift s + 53))%Z.
Proof.
  unfold shift.
  destruct (Z_lt_le_dec 0 (Qfloor s)) as [Hpos|Hneg].
  - destruct (Z.log2_spec _ Hpos) as [_ Hup].
    eapply Z.lt_le_trans; [exact Hup|].
    apply Z.pow_le_mono_r; lia.
  - eapply Z.le_lt_trans; [exact Hneg|]. apply Z.pow_pos_nonneg; lia.
Qed.

Lemma scaled_upper s : (rne (s / inject_Z (2 ^ shift s)) <= 2 ^ 53)%Z.
Proof.
  pose proof (shift_nonneg s) as Hk. pose proof (pow2_pos _ Hk) as Hp.
  rewrite <- (rne_Z (2 ^ 53)). apply rne_mono.
  apply Qle_shift_div_r; [exact Hp|].
  rewrite <- inject_Z_mult, <- Z.pow_add_r by lia.
  apply Qlt_le_weak. eapply Qlt_le_trans; [apply Qlt_floor|].
  rewrite <- Zle_Qle. pose proof (floor_below s). 
  replace (53 + shift s)%Z with (shift s + 53)%Z by lia. lia.
Qed.

Lemma scaled_lower s :
  (0 < shift s)%Z -> (2 ^ 52 <= rne (s / inject_Z (2 ^ shift s)))%Z.
Proof.
  intros Hk. pose proof (pow2_pos (shift s) ltac:(lia)) as Hp.
  rewrite <- (rne_Z (2 ^ 52)) at 1. apply rne_mono.
  apply Qle_shift_div_l; [exact Hp|].
  rewrite <- inject_Z_mult, <- Z.pow_add_r by lia.
  eapply Qle_trans; [|apply Qfloor_le].
  rewrite <- Zle_Qle. unfold shift in *.
  assert (Hl : (53 <= Z.log2 (Qfloor s))%Z) by lia.
  assert (Hpos : (0 < Qfloor s)%Z).
  { destruct (Z_lt_le_dec 0 (Qfloor s)); [easy|].
    rewrite Z.log2_nonpos in Hl by easy. lia. }
  destruct (Z.log2_spec _ Hpos) as [Hlo _].
  eapply Z.le_trans; [|exact Hlo].
  apply Z.pow_le_mono_r; lia.
Qed.

Lemma round_scaled_mono s s' :
  s <= s' -> (round_scaled s <= round_scaled s')%Z.
Proof.
  intros H. pose proof (shift_mono s s' H) as Hk.
  pose proof (shift_nonneg s) as H0.
  unfold round_scaled.
  destruct (Z.eq_dec (shift s) (shift s')) as [E|NE].
  - rewrite <- E. apply Z.mul_le_mono_nonneg_r; [lia|].
    apply rne_mono. apply Qmult_le_compat_r; [exact H|].
    apply Qinv_le_0_compat, Qlt_le_weak, pow2_pos, H0.
  - pose proof (scaled_upper s) as Hu.
    pose proof (scaled_lower s' ltac:(lia)) as Hl.
    apply Z.le_trans with (2 ^ 53 * 2 ^ shift s)%Z.
    + apply Z.mul_le_mono_nonneg_r; [lia|exact Hu].
    + apply Z.le_trans with (2 ^ 52 * 2 ^ shift s')%Z.
      * rewrite <- !Z.pow_add_r by lia. apply Z.pow_le_mono_r; lia.
      * apply Z.mul_le_mono_nonneg_r; [lia|exact Hl].
Qed.

Lemma round_scaled_nonneg s : 0 <= s -> (0 <= round_scaled s)%Z.
Proof.
  intros H. unfold round_scaled. pose proof (shift_nonneg s) as Hk.
  apply Z.mul_nonneg_nonneg; [|lia].
  rewrite <- (rne_Z 0). apply rne_mono.
  apply Qle_shift_div_l; [now apply pow2_pos|].
  now rewrite Qmult_0_l.
Qed.

Lemma scale_pos : 0 < inject_Z scale.
Proof. now apply pow2_pos. Qed.

Lemma round64_pos x :
  0 < x -> round64 x == inject_Z (round_scaled (x * inject_Z scale)) / inject_Z scale.
Proof.
  intros H. unfold round64.
  assert (E : (0 ?= x) = Lt) by now apply Qlt_alt.
  rewrite E. apply Qred_correct.
Qed.

Lemma round64_neg x :
  x < 0 ->
  round64 x == - (inject_Z (round_scaled (- x * inject_Z scale)) / inject_Z scale).
Proof.
  intros H. unfold round64.
  assert (E : (0 ?= x) = Gt) by now apply Qgt_alt.
  rewrite E. apply Qred_correct.
Qed.

Lemma round64_zero x : x == 0 -> round64 x = 0.
Proof.
  intros H. unfold round64.
  assert (E : (0 ?= x) = Eq) by (apply Qeq_alt; now symmetry).
  now rewrite E.
Qed.

Lemma round64_comp x y : x == y -> round64 x == round64 y.
Proof.
  intros H. destruct (Q_dec 0 x) as [[Hp|Hn]|Hz].
  - rewrite (round64_pos x Hp), (round64_pos y) by now rewrite <- H.
    rewrite (round_scaled_comp (x * inject_Z scale) (y * inject_Z scale))
      by now rewrite H.
    reflexivity.
  - rewrite (round64_neg x Hn), (round64_neg y) by now rewrite <- H.
    rewrite (round_scaled_comp (- x * inject_Z scale) (- y * inject_Z scale))
      by now rewrite H.
    reflexivity.
  - rewrite (round64_zero x) by now symmetry.
    rewrite (round64_zero y) by now rewrite <- H.
    reflexivity.
Qed.

Lemma scaled_nonneg x : 0 <= x -> 0 <= x * inject_Z scale.
Proof.
  intros H. apply Qmult_le_0_compat; [exact H|].
  apply Qlt_le_weak, scale_pos.
Qed.

Lemma unscale_nonneg n : (0 <= n)%Z -> 0 <= inject_Z n / inject_Z scale.
Proof.
  intros H. apply Qle_shift_div_l; [apply scale_pos|].
  rewrite Qmult_0_l. change 0 with (inject_Z 0). now rewrite <- Zle_Qle.
Qed.

Lemma round64_nonneg x : 0 <= x -> 0 <= round64 x.
Proof.
  intros H. destruct (Qle_lt_or_eq _ _ H) as [Hp|Hz].
  - rewrite (round64_pos x Hp). apply unscale_nonneg, round_scaled_nonneg.
    now apply scaled_nonneg.
  - rewrite (round64_zero x) by now symmetry. apply Qle_refl.
Qed.

Lemma round64_nonpos x : x <= 0 -> round64 x <= 0.
Proof.
  intros H. destruct (Qle_lt_or_eq _ _ H) as [Hn|Hz].
  - rewrite (round64_neg x Hn).
    setoid_replace 0 with (- 0) using relation Qeq by ring. apply Qopp_le_compat.
    apply unscale_nonneg, round_scaled_nonneg, scaled_nonneg.
    setoid_replace 0 with (- 0) using relation Qeq by ring. now apply Qopp_le_compat.
  - rewrite (round64_zero x Hz). apply Qle_refl.
Qed.

Lemma unscale_mono n m :
  (n <= m)%Z -> inject_Z n / inject_Z scale <= inject_Z m / inject_Z scale.
Proof.
  intros H. apply Qmult_le_compat_r; [now rewrite <- Zle_Qle|].
  apply Qinv_le_0_compat, Qlt_le_weak, scale_pos.
Qed.

(** Rounding to binary64 is monotone. *)
Lemma round64_mono x y : x <= y -> round64 x <= round64 y.
Proof.
  intros H. destruct (Qlt_le_dec 0 x) as [Hx|Hx].
  - assert (Hy : 0 < y) by exact (Qlt_le_trans _ _ _ Hx H).
    rewrite (round64_pos x Hx), (round64_pos y Hy).
    apply unscale_mono, round_scaled_mono.
    apply Qmult_le_compat_r; [exact H|]. apply Qlt_le_weak, scale_pos.
  - destruct (Qlt_le_dec y 0) as [Hy|Hy].
    + assert (Hx' : x < 0) by exact (Qle_lt_trans _ _ _ H Hy).
      rewrite (round64_neg x Hx'), (round64_neg y Hy).
      apply Qopp_le_compat, unscale_mono, round_scaled_mono.
      apply Qmult_le_compat_r.
      * now apply Qopp_le_compat.
      * apply Qlt_le_weak, scale_pos.
    + eapply Qle_trans; [apply round64_nonpos | apply round64_nonneg];
        assumption.
Qed.

Lemma round64_opp x : round64 (- x) == - round64 x.
Proof.
  destruct (Q_dec 0 x) as [[Hp|Hn]|Hz].
  - assert (H : - x < 0).
    { setoid_replace 0 with (- 0) using relation Qeq by ring. now apply Qopp_lt_compat. }
    rewrite (round64_neg _ H), (round64_pos x Hp).
    rewrite (round_scaled_comp (- - x * inject_Z scale) (x * inject_Z scale))
      by ring.
    reflexivity.
  - assert (H : 0 < - x).
    { setoid_replace 0 with (- 0) using relation Qeq by ring. now apply Qopp_lt_compat. }
    rewrite (round64_pos _ H), (round64_neg x Hn). ring.
  - rewrite (round64_zero x) by now symmetry.
    rewrite (round64_zero (- x)) by (rewrite <- Hz; ring). ring.
Qed.

(** What [is_double] says. *)
Lemma is_double_spec x :
  is_double x = true <-> round64 x == x /\ Qabs x < huge.
Proof.
  unfold is_double. rewrite andb_true_iff, Qeq_bool_iff, negb_true_iff.
  split; intros [H1 H2]; (split; [exact H1|]).
  - apply Qnot_le_lt. intros Hle. apply Qle_bool_iff in Hle. congruence.
  - destruct (Qle_bool huge (Qabs x)) eqn:E; [|reflexivity].
    apply Qle_bool_iff in E. exfalso. exact (Qlt_not_le _ _ H2 E).
Qed.

Lemma is_double_0 : is_double 0 = true.
Proof. reflexivity. Qed.

Lemma is_double_comp x y : x == y -> is_double x = is_double y.
Proof.
  intros H. apply eq_true_iff_eq. rewrite !is_double_spec.
  rewrite (round64_comp x y H), H. reflexivity.
Qed.

(** *** Agreement with the reference definition

    [SpecFloat.SFsub 53 1024] is the binary64 subtraction of the Standard
    Library's specification of floating-point arithmetic.  [sub] gives the
    same float at the readings used below and at the corners of the
    format: a tie going to the even neighbour, the subnormal range, and
    overflow to either infinity. *)

Example agrees_late_readings :
  agrees 4000000000 0 (1793700000 * 2 ^ 22 + 1) (-22) = true.
Proof. now vm_compute. Qed.

Example agrees_session_readings :
  agrees (7174800051 * 2 ^ 1 + 1) (-3) 7174800001 (-2) = true.
Proof. now vm_compute. Qed.

Example agrees_tie_to_even :
  agrees (2 ^ 53) 0 (-1) 0 = true /\ agrees (2 ^ 53 + 2) 0 (-1) 0 = true /\
  agrees 1 0 1 (-54) = true /\ agrees 1 0 (-1) (-53) = true.
Proof. now vm_compute. Qed.

Example agrees_subnormal :
  agrees 1 (-1074) 1 (-1073) = true /\ agrees 1 (-1022) 1 (-1074) = true /\
  agrees 3 (-1074) (-5) (-1074) = true.
Proof. now vm_compute. Qed.

Example agrees_overflow :
  agrees (2 ^ 53 - 1) 971 (- (2 ^ 53 - 1)) 971 = true /\
  agrees (- (2 ^ 53 - 1)) 971 (2 ^ 53 - 1) 971 = true /\
  agrees (2 ^ 53 - 1) 971 (-1) 970 = true /\
  agrees (2 ^ 53 - 1) 971 (-1) 969 = true.
Proof. now vm_compute. Qed.

End FloatFacts.

(** ** The shuffle *)

Module RandomFacts.

Import Py Random.

Lemma randbelow_lt (n : nat) (g : t) :
  (0 < n)%nat -> (fst (randbelow n g) < n)%nat.
Proof.
  intros Hn. unfold randbelow.
  destruct (tape g) as [|d ds]; simpl; [lia|].
  apply Nat.mod_upper_bound. lia.
Qed.

(** Overwriting the slot that holds [y] with [a] trades [y] for [a]. *)
Lemma insert_trade {A} (l : list A) (j : nat) (a y : A) :
  l !! j = Some y -> y :: <[j := a]> l ≡ₚ a :: l.
Proof.
  revert j. induction l as [|b l IH]; intros [|j] Hj; simpl in *;
    try discriminate.
  - injection Hj as ->. apply perm_swap.
  - rewrite (perm_swap b y). rewrite (IH j Hj). apply perm_swap.
Qed.

Lemma exchange_perm {A} (l : list A) (i j : nat) (xi xj : A) :
  l !! i = Some xi -> l !! j = Some xj ->
  <[j := xi]> (<[i := xj]> l) ≡ₚ l.
Proof.
  revert i j. induction l as [|a l IH]; intros [|i] [|j] Hi Hj;
    simpl in *; try discriminate.
  - injection Hi as ->. reflexivity.
  - injection Hi as ->. now apply insert_trade.
  - injection Hj as ->. now apply insert_trade.
  - constructor. now apply IH.
Qed.

Lemma swap_returns {A} (x : list A) (i j : nat) :
  (i < length x)%nat -> (j <= i)%nat ->
  exists x', swap x i j = Returns x' /\ x' ≡ₚ x.
Proof.
  intros Hi Hj. unfold swap.
  destruct (lookup_lt_is_Some_2 x i Hi) as [xi Hxi].
  destruct (lookup_lt_is_Some_2 x j ltac:(lia)) as [xj Hxj].
  rewrite Hxi, Hxj. eexists. split; [reflexivity|].
  now apply exchange_perm.
Qed.

(** The loop never indexes outside the list, so it returns, and what it
    returns is a rearrangement of what it was given. *)
Lemma shuffle_from_returns {A} (i : nat) (g : t) (x : list A) :
  (i <= length x - 1)%nat ->
  exists x' g', shuffle_from i g x = (Returns x', g') /\ x' ≡ₚ x.
Proof.
  revert g x. induction i as [|i IH]; intros g x Hi.
  - exists x, g. split; reflexivity.
  - cbn [shuffle_from].
    pose proof (randbelow_lt (S i + 1) g ltac:(lia)) as Hj.
    destruct (randbelow (S i + 1) g) as [j g1]. cbn [fst] in Hj.
    destruct (swap_returns x (S i) j) as (x1 & -> & Hp1); [lia|lia|].
    destruct (IH g1 x1) as (x' & g' & -> & Hp).
    { rewrite (Permutation_length Hp1). lia. }
    exists x', g'. split; [reflexivity|].
    now rewrite Hp.
Qed.

Lemma shuffle_returns {A} (g : t) (x : list A) :
  exists x' g', shuffle g x = (Returns x', g') /\ x' ≡ₚ x.
Proof. now apply shuffle_from_returns. Qed.

End RandomFacts.

(** ** The engine *)

Module EngineFacts.

Import Py QuizEngine.

(** *** Indexing *)

Lemma len_nonneg {A} (l : list A) : 0 <= len l.
Proof. unfold len. lia. Qed.

Lemma getitem_in_range {A} (l : list A) (i : Z) :
  0 <= i < len l ->
  exists a, l !! Z.to_nat i = Some a /\ getitem l i = Returns a.
Proof.
  intros Hi. unfold getitem.
  destruct (Z.ltb_spec i 0) as [?|_]; [lia|].
  destruct (Z.ltb_spec i 0) as [?|_]; [lia|].
  destruct (Z.leb_spec (len l) i) as [?|_]; [lia|]. cbn.
  destruct (lookup_lt_is_Some_2 l (Z.to_nat i)) as [a Ha].
  { unfold len in Hi. lia. }
  exists a. now rewrite Ha.
Qed.

Lemma getitem_past_end {A} (l : list A) (i : Z) :
  len l <= i -> getitem l i = Raises IndexError.
Proof.
  intros Hi. pose proof (len_nonneg l). unfold getitem.
  destruct (Z.ltb_spec i 0) as [?|_]; [lia|].
  destruct (Z.ltb_spec i 0) as [?|_]; [lia|].
  destruct (Z.leb_spec (len l) i) as [_|?]; [|lia].
  reflexivity.
Qed.

Lemma getitem_returns_nonneg {A} (l : list A) (i : Z) (a : A) :
  0 <= i -> getitem l i = Returns a -> i < len l.
Proof.
  intros Hi. unfold getitem.
  destruct (Z.ltb_spec i 0) as [?|_]; [lia|].
  destruct (Z.ltb_spec i 0) as [?|_]; [lia|].
  destruct (Z.leb_spec (len l) i) as [?|?]; cbn; [discriminate|lia].
Qed.

(** *** What [start] does *)

Lemma start_raises e cat diff count now :
  filter_pool (questions_all e) cat diff = [] ->
  start cat diff count now e =
    (Raises no_match,
     with_pool [] (with_difficulty diff (with_category cat e))).
Proof.
  intros Hp. unfold start. run. now rewrite Hp.
Qed.

Lemma start_returns e cat diff count now :
  let p := filter_pool (questions_all e) cat diff in
  p <> [] ->
  exists x g',
    Random.shuffle (rng e) (seq 0 (length p)) = (Returns x, g') /\
    x ≡ₚ seq 0 (length p) /\
    start cat diff count now e =
      (Returns tt,
       {| questions_all := questions_all e;
          rng := g';
          pool := p;
          order := slice_to x (Z.min (Z.max 1 count) (len p));
          index := 0;
          score := 0;
          started_at := now;
          category := cat;
          difficulty := diff |}).
Proof.
  intros p Hp.
  destruct (RandomFacts.shuffle_returns (rng e) (seq 0 (length p)))
    as (x & g' & Hsh & Hperm).
  exists x, g'. split; [exact Hsh|]. split; [exact Hperm|].
  unfold start, rng_shuffle.
  cbv [bind gets assign ret raise lift]. cbn [pool with_pool questions_all
    with_category with_difficulty]. fold p.
  destruct p as [|q p']; [contradiction|].
  cbn [rng with_pool with_difficulty with_category].
  rewrite Hsh. reflexivity.
Qed.

(** *** What [submit] does *)

Lemma submit_raises e sel :
  total e <= index e -> submit sel e = (Raises IndexError, e).
Proof.
  intros H. unfold submit, current. run.
  now rewrite (getitem_past_end (order e) (index e) H).
Qed.

Lemma submit_returns e sel :
  session e -> index e < total e ->
  exists q,
    current e = (Returns q, e) /\
    submit sel e =
      (Returns (eq_opt_str sel (Question.answer q)),
       with_index (index e + 1)
         (if eq_opt_str sel (Question.answer q)
          then with_score (score e + 1) e else e)).
Proof.
  intros [[Hs Hi] [_ Hin]] Hlt.
  destruct (getitem_in_range (order e) (index e)) as (k & Hk & Hgk);
    [unfold total in Hlt; lia|].
  assert (Hkp : (k < length (pool e))%nat).
  { rewrite Forall_lookup in Hin. exact (Hin _ _ Hk). }
  destruct (getitem_in_range (pool e) (Z.of_nat k)) as (q & _ & Hgq);
    [unfold len; lia|].
  exists q. unfold submit, current. run. rewrite Hgk, Hgq. split; [easy|].
  now destruct (eq_opt_str sel (Question.answer q)).
Qed.

Lemma eq_opt_str_true sel a : eq_opt_str sel a = true <-> sel = Some a.
Proof.
  destruct sel as [s|]; cbn; [|easy].
  rewrite String.eqb_eq. split; congruence.
Qed.

(** [submit] never touches the pool, the order or the other attributes
    set by [start]. *)
Lemma submit_frame e sel :
  let e' := snd (submit sel e) in
  questions_all e' = questions_all e /\ rng e' = rng e /\
  pool e' = pool e /\ order e' = order e /\
  started_at e' = started_at e /\ category e' = category e /\
  difficulty e' = difficulty e.
Proof.
  unfold submit, current. run.
  destruct (getitem (order e) (index e)) as [k|x]; [|easy].
  destruct (getitem (pool e) (Z.of_nat k)) as [q|x]; [|easy].
  now destruct (eq_opt_str sel (Question.answer q)).
Qed.

(** The counters after one [submit], whether it returns or raises. *)
Lemma submit_counters e sel :
  let e' := snd (submit sel e) in
  (index e' = index e /\ score e' = score e) \/
  (0 <= index e -> index e < total e) /\ index e' = index e + 1 /\
  score e <= score e' <= score e + 1.
Proof.
  unfold submit, current. run.
  destruct (getitem (order e) (index e)) as [k|x] eqn:Hk; [|now left].
  destruct (getitem (pool e) (Z.of_nat k)) as [q|x]; [|now left].
  right. split.
  { intros H0. exact (getitem_returns_nonneg _ _ _ H0 Hk). }
  destruct (eq_opt_str sel (Question.answer q)); cbn; lia.
Qed.

Lemma submit_session_inv e sel :
  session_inv e -> session_inv (snd (submit sel e)).
Proof.
  intros [Hs Hi]. unfold session_inv, total.
  destruct (submit_frame e sel) as (_ & _ & _ & -> & _).
  destruct (submit_counters e sel) as [[-> ->]|(Hlt & -> & Hsc)];
    [easy|].
  unfold total in Hlt. lia.
Qed.

Lemma submit_session e sel : session e -> session (snd (submit sel e)).
Proof.
  intros [Hc Ho]. split; [now apply submit_session_inv|].
  unfold order_inv.
  destruct (submit_frame e sel) as (_ & _ & -> & -> & _). exact Ho.
Qed.

Lemma finished_iff e :
  session_inv e -> is_finished e = true <-> index e = total e.
Proof.
  intros [_ Hi]. unfold is_finished. rewrite Z.leb_le. lia.
Qed.

Lemma slice_to_prefix {A} (l : list A) (c : Z) :
  0 <= c <= len l ->
  slice_to l c = take (Z.to_nat c) l /\ len (slice_to l c) = c.
Proof.
  intros Hc. unfold slice_to.
  destruct (Z.ltb_spec c 0) as [?|_]; [lia|]. split; [easy|].
  unfold len in *. rewrite length_take. lia.
Qed.

Lemma start_session e cat diff count now :
  filter_pool (questions_all e) cat diff <> [] ->
  session (snd (start cat diff count now e)).
Proof.
  intros Hp.
  destruct (start_returns e cat diff count now Hp)
    as (x & g' & _ & Hperm & ->).
  set (p := filter_pool (questions_all e) cat diff) in *.
  unfold slice_to.
  assert (Hlen : 0 < len p).
  { unfold len. destruct p; [contradiction|]. cbn. lia. }
  destruct (Z.ltb_spec (Z.min (Z.max 1 count) (len p)) 0) as [?|_]; [lia|].
  set (c := Z.to_nat (Z.min (Z.max 1 count) (len p))).
  assert (Hnd : NoDup x) by (rewrite Hperm; apply NoDup_seq).
  assert (Hall : Forall (fun k => (k < length p)%nat) x).
  { rewrite Hperm. apply Forall_forall. intros k Hk.
    apply elem_of_seq in Hk. lia. }
  repeat split; cbn.
  - lia.
  - lia.
  - unfold total. cbn. apply len_nonneg.
  - apply (sublist_NoDup (take c x) x); [exact Hnd | apply sublist_take].
  - now apply Forall_take.
Qed.

Lemma submits_session sels e :
  session e ->
  session (submits sels e) /\
  total (submits sels e) = total e /\
  index (submits sels e) = Z.min (index e + len sels) (total e).
Proof.
  revert e. induction sels as [|sel sels IH]; intros e He.
  - split; [exact He|]. split; [reflexivity|].
    destruct He as [[? ?] ?]. unfold submits, len. cbn. lia.
  - change (submits (sel :: sels) e)
      with (submits sels (snd (submit sel e))).
    destruct (IH _ (submit_session e sel He)) as (Hs & Ht & Hi).
    split; [exact Hs|]. rewrite Ht, Hi. clear IH Hs Ht Hi.
    assert (Hlen : len (sel :: sels) = len sels + 1)
      by (unfold len; cbn [length]; lia).
    pose proof (len_nonneg sels) as Hn.
    destruct (Z_lt_le_dec (index e) (total e)) as [Hlt|Hge].
    + destruct (submit_returns e sel He Hlt) as (q & _ & ->).
      cbn [snd]. unfold total.
      destruct (eq_opt_str sel (Question.answer q)); cbn; lia.
    + rewrite (submit_raises e sel Hge). cbn [snd]. lia.
Qed.

Lemma idle_fields e :
  idle e ->
  pool e = [] /\ order e = [] /\ index e = 0 /\ score e = 0 /\
  started_at e = 0%Q /\ category e = "Any" /\ difficulty e = "Any".
Proof.
  unfold idle. intros H. rewrite <- H. now cbn.
Qed.

Lemma idle_init qs g : idle (init qs g).
Proof. reflexivity. Qed.

Lemma idle_reset e : idle (snd (reset_state e)).
Proof. reflexivity. Qed.

(** *** Claims about [start] *)

(** C1, as the code has it.  When the engine is idle and no question
    matches the filter, [start] raises the no-match error and starts no
    session: pool, order, position, score, start timestamp, generator and
    question store are what they were.  The category and difficulty
    filters, however, have been overwritten with the requested values
    by the time the error is raised. *)
Theorem start_no_match_keeps_session e cat diff count now :
  idle e ->
  filter_pool (questions_all e) cat diff = [] ->
  let e' := snd (start cat diff count now e) in
  fst (start cat diff count now e) = Raises no_match /\
  e' = with_difficulty diff (with_category cat e) /\
  pool e' = pool e /\ order e' = order e /\ index e' = index e /\
  score e' = score e /\ started_at e' = started_at e /\
  rng e' = rng e /\ questions_all e' = questions_all e /\
  category e' = cat /\ difficulty e' = diff.
Proof.
  intros Hidle Hp e'. subst e'.
  rewrite (start_raises e cat diff count now Hp).
  destruct (idle_fields e Hidle) as (Hpool & _).
  cbn. rewrite Hpool. repeat split.
  destruct e; cbn in *. now subst.
Qed.

Lemma start_no_match_keeps_session_witness :
  idle Examples.sample_engine /\
  filter_pool (questions_all Examples.sample_engine) "History" "Hard" = [] /\
  fst (start "History" "Hard" 5 Examples.t0 Examples.sample_engine)
    = Raises no_match /\
  order (snd (start "History" "Hard" 5 Examples.t0 Examples.sample_engine))
    = order Examples.sample_engine.
Proof.
  split; [reflexivity|]. split; [reflexivity|].
  destruct (start_no_match_keeps_session Examples.sample_engine
              "History" "Hard" 5 Examples.t0)
    as (Hr & _ & _ & Ho & _); [reflexivity | reflexivity |].
  split; [exact Hr | exact Ho].
Defined.

(** C1, as stated, fails: on the idle sample engine no question is both
    "History" and "Hard", and the failed [start] leaves the two filter
    attributes changed. *)
Lemma start_no_match_changes_filters :
  idle Examples.sample_engine /\
  filter_pool (questions_all Examples.sample_engine) "History" "Hard" = [] /\
  ~ start_preserves_state Examples.sample_engine "History" "Hard" 5
      Examples.t0.
Proof.
  split; [reflexivity|]. split; [reflexivity|].
  intros [_ H]. apply (f_equal category) in H. vm_compute in H.
  discriminate H.
Qed.

(** C4.  On a non-empty filtered pool [start] returns, the number of
    questions is the requested count clamped to [1, pool size], and the
    order is a prefix of a permutation of the pool's indices: no index
    occurs twice and every entry indexes the pool. *)
Theorem start_order e cat diff count now :
  let p := filter_pool (questions_all e) cat diff in
  p <> [] ->
  let e' := snd (start cat diff count now e) in
  fst (start cat diff count now e) = Returns tt /\
  pool e' = p /\
  total e' = clamp count 1 (len p) /\
  (exists perm, perm ≡ₚ seq 0 (length p) /\
                order e' = take (Z.to_nat (total e')) perm) /\
  NoDup (order e') /\
  Forall (fun k => (k < length (pool e'))%nat) (order e').
Proof.
  intros p Hp e'.
  destruct (start_session e cat diff count now Hp) as [_ [Hnd Hall]].
  fold e' in Hnd, Hall. subst e'.
  destruct (start_returns e cat diff count now Hp)
    as (x & g' & _ & Hperm & Hst).
  rewrite Hst in *. fold p in Hperm, Hnd, Hall |- *.
  cbn [fst snd pool order] in *. unfold total. cbn [order].
  assert (Hlen : 0 < len p).
  { unfold len. destruct p; [contradiction|]. cbn. lia. }
  assert (Hx : len x = len p).
  { unfold len. now rewrite Hperm, length_seq. }
  destruct (slice_to_prefix x (Z.min (Z.max 1 count) (len p)))
    as [Hs Hl]; [lia|].
  split; [reflexivity|]. split; [reflexivity|].
  split; [exact Hl|]. split; [|now split].
  exists x. split; [exact Hperm|]. now rewrite Hl.
Qed.

Lemma start_order_witness :
  filter_pool (questions_all Examples.sample_engine) "Any" "Any" <> [] /\
  total Examples.sample_session = clamp 3 1 4 /\
  NoDup (order Examples.sample_session).
Proof.
  split; [discriminate|].
  destruct (start_order Examples.sample_engine "Any" "Any" 3 Examples.t0)
    as (_ & _ & Ht & _ & Hnd & _); [discriminate|].
  split; [exact Ht | exact Hnd].
Defined.

(** *** Claims about [submit] *)

(** C3.  After a [start] that found questions, [0 <= score <= position
    <= length(order)]; every [submit] call, whether it returns or
    raises, takes a state with these bounds to a state with these
    bounds; and under them [is_finished] holds exactly when the position
    equals the length of the order. *)
Theorem session_invariants :
  (forall e cat diff count now,
      filter_pool (questions_all e) cat diff <> [] ->
      session_inv (snd (start cat diff count now e))) /\
  (forall e sel, session_inv e -> session_inv (snd (submit sel e))) /\
  (forall e, session_inv e ->
             (is_finished e = true <-> index e = total e)).
Proof.
  split; [|split].
  - intros e cat diff count now Hp.
    exact (proj1 (start_session e cat diff count now Hp)).
  - exact submit_session_inv.
  - exact finished_iff.
Qed.

Lemma session_invariants_witness :
  filter_pool (questions_all Examples.sample_engine) "Any" "Any" <> [] /\
  session_inv Examples.sample_session /\
  session_inv (snd (submit (Some "Water") Examples.sample_session)) /\
  (is_finished Examples.sample_session = true <->
   index Examples.sample_session = total Examples.sample_session).
Proof.
  destruct session_invariants as (Hstart & Hsubmit & Hfin).
  assert (Hp : filter_pool (questions_all Examples.sample_engine)
                 "Any" "Any" <> []) by discriminate.
  pose proof (Hstart Examples.sample_engine "Any" "Any" 3 Examples.t0 Hp)
    as Hinv.
  split; [exact Hp|]. split; [exact Hinv|].
  split; [exact (Hsubmit _ (Some "Water") Hinv) | exact (Hfin _ Hinv)].
Defined.

(** A timeout, [submit(None)], is a wrong answer. *)
Lemma submit_none_is_wrong e :
  session e -> index e < total e ->
  fst (submit None e) = Returns false /\
  score (snd (submit None e)) = score e /\
  index (snd (submit None e)) = index e + 1.
Proof.
  intros He Hlt.
  destruct (submit_returns e None He Hlt) as (q & _ & ->). now cbn.
Qed.

(** C5.  In a session that is not finished, [submit(selected)] returns
    whether [selected] is a string equal to the current question's
    answer; it adds one to the score exactly in that case, leaves the
    score alone otherwise (in particular for [None]), and moves the
    position forward by one either way, touching nothing else. *)
Theorem submit_scores e sel :
  session e ->
  is_finished e = false ->
  exists q,
    fst (current e) = Returns q /\
    let correct := eq_opt_str sel (Question.answer q) in
    let e' := snd (submit sel e) in
    (correct = true <-> sel = Some (Question.answer q)) /\
    fst (submit sel e) = Returns correct /\
    score e' = (if correct then score e + 1 else score e) /\
    index e' = index e + 1 /\
    pool e' = pool e /\ order e' = order e /\
    started_at e' = started_at e /\ category e' = category e /\
    difficulty e' = difficulty e.
Proof.
  intros He Hnf. unfold is_finished in Hnf. apply Z.leb_gt in Hnf.
  destruct (submit_returns e sel He Hnf) as (q & Hcur & Hsub).
  exists q. rewrite Hcur, Hsub. cbn [fst snd].
  split; [reflexivity|]. split; [apply eq_opt_str_true|].
  split; [reflexivity|].
  now destruct (eq_opt_str sel (Question.answer q)).
Qed.

Lemma submit_scores_witness :
  session Examples.sample_session /\
  is_finished Examples.sample_session = false /\
  exists q,
    fst (current Examples.sample_session) = Returns q /\
    fst (submit (Some "Water") Examples.sample_session)
      = Returns (eq_opt_str (Some "Water") (Question.answer q)) /\
    index (snd (submit (Some "Water") Examples.sample_session)) = 1.
Proof.
  assert (Hs : session Examples.sample_session).
  { apply start_session. discriminate. }
  split; [exact Hs|]. split; [reflexivity|].
  destruct (submit_scores Examples.sample_session (Some "Water") Hs
              eq_refl) as (q & Hq & _ & Hr & _ & Hi & _).
  exists q. split; [exact Hq|]. split; [exact Hr | exact Hi].
Defined.

(** C9.  When the position equals the length of the order (a finished
    session, or an idle engine with its empty order), [submit] raises
    [IndexError] out of the lookup of the current question and the
    engine is left exactly as it was. *)
Theorem submit_past_end e sel :
  idle e \/ index e = total e ->
  submit sel e = (Raises IndexError, e).
Proof.
  intros H. apply submit_raises.
  destruct H as [H| ->]; [|lia].
  destruct (idle_fields e H) as (_ & Ho & Hi & _).
  unfold total, len. rewrite Ho, Hi. cbn. lia.
Qed.

Lemma submit_past_end_witness :
  (idle Examples.sample_engine \/
   index Examples.sample_engine = total Examples.sample_engine) /\
  submit (Some "Water") Examples.sample_engine
    = (Raises IndexError, Examples.sample_engine).
Proof.
  split; [left; reflexivity|].
  apply (submit_past_end Examples.sample_engine (Some "Water")).
  left. reflexivity.
Defined.

(** C6.  After a [start] that selected [total] questions, [is_finished]
    is true after exactly [total] calls of [submit] and false after
    fewer; and at every point of the session it is true exactly when the
    position equals [total]. *)
Theorem finished_after_total e cat diff count now sels :
  filter_pool (questions_all e) cat diff <> [] ->
  let e0 := snd (start cat diff count now e) in
  let e' := submits sels e0 in
  (len sels = total e0 -> is_finished e' = true) /\
  (len sels < total e0 -> is_finished e' = false) /\
  (is_finished e' = true <-> index e' = total e0).
Proof.
  intros Hp e0 e'.
  pose proof (start_session e cat diff count now Hp) as He0.
  fold e0 in He0.
  destruct (submits_session sels e0 He0) as (He' & Ht & Hi).
  fold e' in He', Ht, Hi.
  assert (H0 : index e0 = 0).
  { unfold e0.
    now destruct (start_returns e cat diff count now Hp)
      as (x & g' & _ & _ & ->). }
  pose proof (len_nonneg sels) as Hn.
  unfold is_finished. rewrite Ht, Hi, H0.
  split; [|split].
  - intros Hl. apply Z.leb_le. lia.
  - intros Hl. apply Z.leb_gt. lia.
  - rewrite Z.leb_le. lia.
Qed.

Lemma finished_after_total_witness :
  filter_pool (questions_all Examples.sample_engine) "Any" "Any" <> [] /\
  is_finished
    (submits [Some "Water"; None; Some "Venus"] Examples.sample_session)
    = true /\
  is_finished (submits [Some "Water"; None] Examples.sample_session)
    = false.
Proof.
  split; [discriminate|]. split.
  - apply (finished_after_total Examples.sample_engine "Any" "Any" 3
             Examples.t0 [Some "Water"; None; Some "Venus"]);
      [discriminate | reflexivity].
  - apply (finished_after_total Examples.sample_engine "Any" "Any" 3
             Examples.t0 [Some "Water"; None]);
      [discriminate | reflexivity].
Defined.

(** The scenarios of a short quiz on the sample bank: three of four
    questions are drawn, in the order 0, 2, 1 of the pool. *)
Example sample_order : order Examples.sample_session = [0; 2; 1]%nat.
Proof. reflexivity. Qed.

Example sample_run :
  let e := submits [Some "Water"; None; Some "Mars"]
             Examples.sample_session in
  score e = 2 /\ index e = 3 /\ is_finished e = true.
Proof. repeat split. Qed.

Example sample_clamped :
  total (snd (start "Any" "Any" 100 Examples.t0 Examples.sample_engine))
  = 4.
Proof. reflexivity. Qed.

Example sample_at_least_one :
  total (snd (start "Science" "Any" (-3) Examples.t0
                Examples.sample_engine)) = 1.
Proof. reflexivity. Qed.

(** *** Claims about [duration_seconds] *)

Lemma max0_Qmax x : Py.max0 x = Qmax 0 x.
Proof. reflexivity. Qed.

Lemma max0_nonneg x : (0 <= Py.max0 x)%Q.
Proof. rewrite max0_Qmax. apply Q.le_max_l. Qed.

(** On a number that is not negative, truncation toward zero is the
    floor. *)
Lemma int_nonneg x : (0 <= x)%Q -> Py.int x = Qfloor x.
Proof.
  destruct x as [n d]. unfold Qle, Py.int, Qfloor. cbn. intros Hn.
  apply Z.quot_div_nonneg; lia.
Qed.

Lemma int_max0 x : Py.int (Py.max0 x) = Qfloor (Qmax 0 x).
Proof. now rewrite int_nonneg by apply max0_nonneg. Qed.

Lemma floor_max0_nonneg x : 0 <= Qfloor (Qmax 0 x).
Proof. change 0 with (Qfloor 0). apply Qfloor_resp_le, Q.le_max_l. Qed.

Lemma floor_max0_mono x y :
  (x <= y)%Q -> Qfloor (Qmax 0 x) <= Qfloor (Qmax 0 y).
Proof. intros H. now apply Qfloor_resp_le, Q.max_le_compat_l. Qed.

Lemma floor_max0_comp x y :
  (x == y)%Q -> Qfloor (Qmax 0 x) = Qfloor (Qmax 0 y).
Proof.
  intros H. apply Z.le_antisymm; apply floor_max0_mono; rewrite H;
    apply Qle_refl.
Qed.

(** The three ways a rounded difference can fall. *)
Lemma overflow_cases q :
  (Float.overflow q = Float.PosInf /\ (Float.huge <= q)%Q) \/
  (Float.overflow q = Float.NegInf /\ (q <= - Float.huge)%Q) \/
  (Float.overflow q = Float.Finite q /\
   (- Float.huge < q)%Q /\ (q < Float.huge)%Q).
Proof.
  unfold Float.overflow.
  destruct (Qle_bool Float.huge q) eqn:E1.
  - left. split; [reflexivity | now apply Qle_bool_iff].
  - destruct (Qle_bool q (- Float.huge)) eqn:E2.
    + right. left. split; [reflexivity | now apply Qle_bool_iff].
    + right. right. split; [reflexivity|]. split; apply Qnot_le_lt;
        intros H; apply Qle_bool_iff in H; congruence.
Qed.

Lemma of_rounded_cases r :
  (of_rounded r = Raises OverflowError /\ (Float.huge <= r)%Q) \/
  (of_rounded r = Returns (Qfloor (Qmax 0 r)) /\ (r < Float.huge)%Q).
Proof.
  unfold of_rounded.
  destruct (overflow_cases r) as [[-> H]|[[-> H]|[-> [H1 H2]]]]; cbn.
  - now left.
  - right. assert (Hneg : (r <= 0)%Q).
    { eapply Qle_trans; [exact H|]. now vm_compute. }
    split.
    + rewrite (Qfloor_comp (Qmax 0 r) 0) by (now apply Q.max_l).
      reflexivity.
    + eapply Qle_lt_trans; [exact Hneg|]. reflexivity.
  - right. now rewrite int_max0.
Qed.

Lemma of_rounded_mono r r' d' :
  (r <= r')%Q -> of_rounded r' = Returns d' ->
  exists d, of_rounded r = Returns d /\ d <= d'.
Proof.
  intros Hle Hr'.
  destruct (of_rounded_cases r') as [[E' _]|[E' Hlt']]; [congruence|].
  rewrite E' in Hr'. injection Hr' as <-.
  destruct (of_rounded_cases r) as [[_ Hbig]|[E _]].
  - exfalso. apply (Qlt_not_le _ _ Hlt').
    eapply Qle_trans; eassumption.
  - exists (Qfloor (Qmax 0 r)). split; [exact E|].
    now apply floor_max0_mono.
Qed.

Lemma of_rounded_comp r r' :
  (r == r')%Q -> (r < Float.huge)%Q ->
  of_rounded r = Returns (Qfloor (Qmax 0 r')).
Proof.
  intros H Hlt.
  destruct (of_rounded_cases r) as [[_ Hbig]|[E _]].
  - exfalso. exact (Qlt_not_le _ _ Hlt Hbig).
  - rewrite E. f_equal. now apply floor_max0_comp.
Qed.

(** The subtraction of two doubles. *)
Lemma duration_doubles now e :
  Float.is_double now = true -> Float.is_double (started_at e) = true ->
  duration_seconds now e
  = of_rounded (Float.round64 (now - started_at e)).
Proof.
  intros Hn Hs. unfold duration_seconds, Float.sub, of_rounded.
  now rewrite Hn, Hs.
Qed.

(** Subtracting [0.0] changes nothing. *)
Lemma duration_from_zero now e :
  started_at e = 0%Q -> duration_seconds now e = Returns (Qfloor (Qmax 0 now)).
Proof.
  intros Hs. unfold duration_seconds, Float.sub. rewrite Hs.
  assert (H0 : (now - 0 == now)%Q) by ring.
  destruct (Float.is_double now) eqn:Hd; cbn [andb].
  - apply FloatFacts.is_double_spec in Hd as [Hr Hb].
    change (Float.is_double 0) with true. cbv iota.
    apply of_rounded_comp.
    + now rewrite (FloatFacts.round64_comp _ _ H0).
    + rewrite (FloatFacts.round64_comp _ _ H0), Hr.
      eapply Qle_lt_trans; [apply Qle_Qabs | exact Hb].
  - cbn. rewrite int_max0. f_equal. now apply floor_max0_comp.
Qed.

Lemma submits_started_at sels e :
  started_at (submits sels e) = started_at e.
Proof.
  revert e. induction sels as [|sel sels IH]; intros e; [reflexivity|].
  change (submits (sel :: sels) e) with (submits sels (snd (submit sel e))).
  rewrite IH.
  now destruct (submit_frame e sel) as (_ & _ & _ & _ & -> & _).
Qed.

(** C7, as the code has it.  In a session begun by [start] at the reading
    [now0], [duration_seconds] at the reading [now] is the elapsed time as
    binary64 arithmetic gives it, the difference of the two readings
    rounded to the nearest double, floored at 0 and cut down to whole
    seconds; it raises only when that difference overflows, which readings
    that are not negative never do.  Whenever the exact difference is
    itself a double, this is the exact elapsed time floored at 0 and cut
    down to whole seconds.  The value is never negative, and a later
    reading never gives a smaller one. *)
Theorem duration_seconds_spec e cat diff count now0 sels now :
  filter_pool (questions_all e) cat diff <> [] ->
  Float.is_double now0 = true ->
  Float.is_double now = true ->
  let e' := submits sels (snd (start cat diff count now0 e)) in
  let r := Float.round64 (now - now0) in
  (duration_seconds now e' = Returns (whole_seconds 0 r) \/
   duration_seconds now e' = Raises OverflowError /\ (Float.huge <= r)%Q) /\
  (Float.is_double (now - now0) = true ->
   duration_seconds now e' = Returns (whole_seconds now0 now)) /\
  ((0 <= now0)%Q -> (0 <= now)%Q ->
   exists d, duration_seconds now e' = Returns d) /\
  (forall d, duration_seconds now e' = Returns d -> 0 <= d) /\
  (forall now' d',
      Float.is_double now' = true -> (now <= now')%Q ->
      duration_seconds now' e' = Returns d' ->
      exists d, duration_seconds now e' = Returns d /\ d <= d').
Proof.
  intros Hp H0 Hn e' r.
  assert (Hst : started_at e' = now0).
  { unfold e'. rewrite submits_started_at.
    now destruct (start_returns e cat diff count now0 Hp)
      as (x & g' & _ & _ & ->). }
  assert (Hdur : forall t, Float.is_double t = true ->
             duration_seconds t e' = of_rounded (Float.round64 (t - now0))).
  { intros t Ht. rewrite duration_doubles, Hst; [reflexivity|exact Ht|].
    now rewrite Hst. }
  rewrite (Hdur now Hn). fold r.
  assert (Hw : whole_seconds 0 r = Qfloor (Qmax 0 r)).
  { unfold whole_seconds. apply floor_max0_comp. ring. }
  split; [|split; [|split; [|split]]].
  - destruct (of_rounded_cases r) as [[E Hbig]|[E _]].
    + right. now split.
    + left. now rewrite Hw.
  - intros Hd. apply FloatFacts.is_double_spec in Hd as [Hr Hb].
    unfold whole_seconds. apply of_rounded_comp; [exact Hr|].
    unfold r. rewrite Hr. eapply Qle_lt_trans; [apply Qle_Qabs|exact Hb].
  - intros Hs0 Hn0.
    destruct (of_rounded_cases r) as [[_ Hbig]|[E _]]; [|eauto].
    exfalso. apply FloatFacts.is_double_spec in Hn as [Hr Hb].
    apply (Qlt_not_le _ _ Hb). eapply Qle_trans; [exact Hbig|].
    eapply Qle_trans; [|apply Qle_Qabs]. rewrite <- Hr.
    apply FloatFacts.round64_mono.
    rewrite <- (Qplus_0_r now) at 2. unfold Qminus.
    apply Qplus_le_compat; [apply Qle_refl|].
    setoid_replace 0%Q with (- 0)%Q using relation Qeq by ring.
    now apply Qopp_le_compat.
  - intros d Hd.
    destruct (of_rounded_cases r) as [[E _]|[E _]]; [congruence|].
    rewrite E in Hd. injection Hd as <-. apply floor_max0_nonneg.
  - intros now' d' Hn' Hle Hd'. rewrite (Hdur now' Hn') in Hd'.
    apply (of_rounded_mono r (Float.round64 (now' - now0)) d');
      [|exact Hd'].
    apply FloatFacts.round64_mono. unfold Qminus.
    apply Qplus_le_compat; [exact Hle | apply Qle_refl].
Qed.

Lemma duration_seconds_spec_witness :
  filter_pool (questions_all Examples.sample_engine) "Any" "Any" <> [] /\
  Float.is_double Examples.t0 = true /\
  Float.is_double (Examples.t0 + 12.875)%Q = true /\
  Float.is_double (Examples.t0 + 75)%Q = true /\
  Float.is_double (Examples.t0 + 12.875 - Examples.t0)%Q = true /\
  (Examples.t0 + 12.875 <= Examples.t0 + 75)%Q /\
  duration_seconds (Examples.t0 + 12.875)%Q Examples.sample_session
    = Returns 12 /\
  exists d,
    duration_seconds (Examples.t0 + 12.875)%Q Examples.sample_session
      = Returns d /\ d <= 75.
Proof.
  assert (Hp : filter_pool (questions_all Examples.sample_engine)
                 "Any" "Any" <> []) by discriminate.
  assert (H0 : Float.is_double Examples.t0 = true) by (now vm_compute).
  assert (H1 : Float.is_double (Examples.t0 + 12.875)%Q = true)
    by (now vm_compute).
  assert (H2 : Float.is_double (Examples.t0 + 75)%Q = true)
    by (now vm_compute).
  assert (H3 : Float.is_double (Examples.t0 + 12.875 - Examples.t0)%Q = true)
    by (now vm_compute).
  assert (H4 : (Examples.t0 + 12.875 <= Examples.t0 + 75)%Q)
    by (vm_compute; discriminate).
  destruct (duration_seconds_spec Examples.sample_engine "Any" "Any" 3
              Examples.t0 [] (Examples.t0 + 12.875)%Q Hp H0 H1)
    as (_ & Hexact & _ & _ & Hmono).
  repeat (split; [assumption|]). split.
  - exact (Hexact H3).
  - refine (Hmono (Examples.t0 + 75)%Q 75 H2 H4 _). now vm_compute.
Defined.

(** C7, as stated, fails: from a start one clock tick after a whole second
    to a reading some seventy years later a little less than 2206300000
    seconds have passed, cut down 2206299999, and [duration_seconds]
    returns 2206300000, the binary64 difference having rounded up. *)
Lemma duration_rounds_up :
  Float.is_double Examples.late_start = true /\
  Float.is_double Examples.late_now = true /\
  whole_seconds Examples.late_start Examples.late_now = 2206299999 /\
  duration_seconds Examples.late_now
    (snd (start "Any" "Any" 3 Examples.late_start Examples.sample_engine))
  = Returns 2206300000.
Proof. now vm_compute. Qed.

(** C10.  On an idle engine the start timestamp is 0, so at a clock
    reading [now >= 0] [duration_seconds] is the whole number of seconds
    in [now] itself, the time since the epoch; from one second after the
    epoch on it is positive, not 0. *)
Theorem idle_duration e now :
  idle e ->
  (0 <= now)%Q ->
  started_at e = 0%Q /\
  duration_seconds now e = Returns (Py.int now) /\
  duration_seconds now e = Returns (Qfloor now) /\
  ((1 <= now)%Q ->
   exists d, duration_seconds now e = Returns d /\ 1 <= d).
Proof.
  intros Hidle Hnow.
  destruct (idle_fields e Hidle) as (_ & _ & _ & _ & Hst & _).
  assert (Hd : duration_seconds now e = Returns (Qfloor now)).
  { rewrite (duration_from_zero now e Hst). f_equal.
    apply Qfloor_comp. now apply Q.max_r. }
  split; [exact Hst|]. split; [|split].
  - rewrite Hd. f_equal. symmetry. now apply int_nonneg.
  - exact Hd.
  - intros H1. exists (Qfloor now). split; [exact Hd|].
    change 1 with (Qfloor 1). now apply Qfloor_resp_le.
Qed.

Lemma idle_duration_witness :
  idle Examples.sample_engine /\
  (0 <= Examples.t0)%Q /\
  duration_seconds Examples.t0 Examples.sample_engine
    = Returns 1793700000.
Proof.
  split; [reflexivity|]. split; [vm_compute; discriminate|].
  destruct (idle_duration Examples.sample_engine Examples.t0)
    as (_ & _ & Hd & _); [reflexivity | vm_compute; discriminate |].
  rewrite Hd. reflexivity.
Defined.

End EngineFacts.

(** ** The loader *)

Module LoaderFacts.

Import Py Loader.
Local Open Scope list_scope.

Lemma make_question_complete c q :
  complete q = true ->
  exists x, make_question c q = Returns x /\ loaded (c, q) x.
Proof.
  unfold complete, make_question, loaded.
  destruct (j_question q) as [qu|] eqn:Hq; [|discriminate].
  destruct (j_options q) as [o|] eqn:Ho; [|discriminate].
  destruct (j_answer q) as [a|] eqn:Ha; [|discriminate].
  intros _. cbn. eexists. split; [reflexivity|]. cbn.
  rewrite Hq, Ho, Ha. repeat split.
Qed.

Lemma make_question_incomplete c q :
  complete q = false ->
  exists key, make_question c q = Raises (KeyError key).
Proof.
  unfold complete, make_question.
  destruct (j_question q); [|cbn; eauto].
  destruct (j_options q); [|cbn; eauto].
  destruct (j_answer q); [discriminate|cbn; eauto].
Qed.

Lemma load_items_complete c items out :
  Forall (fun q => complete q = true) items ->
  exists qs, load_items c items out = Returns (out ++ qs)%list /\
             Forall2 loaded (map (pair c) items) qs.
Proof.
  revert out. induction items as [|q items IH]; intros out Hall.
  - exists []. cbn. now rewrite app_nil_r.
  - apply Forall_cons in Hall as [Hq Hall].
    destruct (make_question_complete c q Hq) as (x & Hx & Hl).
    destruct (IH (out ++ [x]) Hall) as (qs & Hqs & Hf).
    exists (x :: qs). cbn. rewrite Hx. cbn. rewrite Hqs.
    rewrite <- app_assoc. split; [reflexivity|]. now constructor.
Qed.

Lemma load_items_incomplete c items out :
  Exists (fun q => complete q = false) items ->
  exists key, load_items c items out = Raises (KeyError key).
Proof.
  revert out. induction items as [|q items IH]; intros out Hex.
  - inversion Hex.
  - cbn. destruct (complete q) eqn:Hq.
    + destruct (make_question_complete c q Hq) as (x & -> & _). cbn.
      apply IH. inversion Hex as [? ? Hq'|]; subst; [congruence|easy].
    + destruct (make_question_incomplete c q Hq) as (key & ->).
      cbn. eauto.
Qed.

Lemma complete_or_not items :
  Forall (fun q => complete q = true) items \/
  Exists (fun q => complete q = false) items.
Proof.
  induction items as [|q items [IH|IH]].
  - left. constructor.
  - destruct (complete q) eqn:Hq.
    + left. now constructor.
    + right. now constructor.
  - right. now constructor 2.
Qed.

Lemma load_bank_complete raw out :
  Forall (fun cq => complete (snd cq) = true) (items_of raw) ->
  exists qs, load_bank raw out = Returns (out ++ qs)%list /\
             Forall2 loaded (items_of raw) qs.
Proof.
  revert out. induction raw as [|[c items] raw IH]; intros out Hall.
  - exists []. cbn. now rewrite app_nil_r.
  - unfold items_of in Hall. cbn in Hall.
    apply Forall_app in Hall as [Hhere Hrest].
    rewrite Forall_map in Hhere.
    destruct (load_items_complete c items out Hhere) as (qs1 & H1 & F1).
    destruct (IH (out ++ qs1) Hrest) as (qs2 & H2 & F2).
    exists (qs1 ++ qs2). cbn. rewrite H1. cbn. rewrite H2.
    rewrite <- app_assoc. split; [reflexivity|].
    now apply Forall2_app.
Qed.

Lemma load_bank_incomplete raw out :
  Exists (fun cq => complete (snd cq) = false) (items_of raw) ->
  exists key, load_bank raw out = Raises (KeyError key).
Proof.
  revert out. induction raw as [|[c items] raw IH]; intros out Hex.
  - inversion Hex.
  - unfold items_of in Hex. cbn in Hex. apply Exists_app in Hex.
    cbn.
    destruct (complete_or_not items) as [Hall|Hbad].
    + destruct (load_items_complete c items out Hall) as (qs & -> & _).
      cbn. apply IH. destruct Hex as [Hex|Hex]; [|exact Hex].
      exfalso. apply Exists_exists in Hex as ([c' q] & Hin & Hq).
      apply list_elem_of_In, in_map_iff in Hin as (q' & [= <- <-] & Hin).
      rewrite Forall_forall in Hall.
      apply list_elem_of_In, Hall in Hin. cbn in Hq. congruence.
    + destruct (load_items_incomplete c items out Hbad) as (key & ->).
      cbn. eauto.
Qed.

Lemma stray_item_unlisted : ~ answer_listed Examples.stray_item.
Proof.
  intros (a & o & Ha & Ho & Hin). cbn in Ha, Ho.
  injection Ha as <-. injection Ho as <-.
  cbn in Hin. intuition discriminate.
Qed.

(** C2, as the code has it.  A source that cannot be located raises
    [FileNotFoundError]; in a located, decodable source a record without
    one of the keys "question", "options", "answer" raises [KeyError];
    and when every record has the three keys, loading returns one
    question per record, carrying the record's answer as it stands:
    the answer is never compared with the options. *)
Theorem load_questions_outcome v path :
  (locate v path = None ->
   load_questions v path
     = Raises (FileNotFoundError (path ++ " not found")%string)) /\
  (forall candidate raw,
      locate v path = Some candidate ->
      files v candidate = Some (Json raw) ->
      (Exists (fun cq => complete (snd cq) = false) (items_of raw) ->
       exists key, load_questions v path = Raises (KeyError key)) /\
      (Forall (fun cq => complete (snd cq) = true) (items_of raw) ->
       exists qs, load_questions v path = Returns qs /\
                  Forall2 loaded (items_of raw) qs)).
Proof.
  unfold load_questions. split.
  - now intros ->.
  - intros candidate raw -> ->. split.
    + apply load_bank_incomplete.
    + intros Hall.
      destruct (load_bank_complete raw [] Hall) as (qs & Hqs & Hf).
      exists qs. now rewrite Hqs.
Qed.

Lemma load_questions_outcome_witness :
  locate (Examples.app_env [("Geography", [Examples.stray_item])])
    "q.json" = None /\
  load_questions (Examples.app_env [("Geography", [Examples.stray_item])])
    "q.json" = Raises (FileNotFoundError "q.json not found") /\
  (exists key,
      load_questions
        (Examples.app_env [("Geography", [Examples.partial_item])])
        "questions.json" = Raises (KeyError key)) /\
  (exists qs,
      load_questions
        (Examples.app_env [("Geography", [Examples.stray_item])])
        "questions.json" = Returns qs).
Proof.
  split; [reflexivity|]. split; [|split].
  - apply (load_questions_outcome
             (Examples.app_env [("Geography", [Examples.stray_item])])
             "q.json").
    reflexivity.
  - destruct (load_questions_outcome
                (Examples.app_env [("Geography", [Examples.partial_item])])
                "questions.json") as [_ H].
    destruct (H "/app/questions.json"
                [("Geography", [Examples.partial_item])]
                eq_refl eq_refl) as [Hbad _].
    apply Hbad. constructor. reflexivity.
  - destruct (load_questions_outcome
                (Examples.app_env [("Geography", [Examples.stray_item])])
                "questions.json") as [_ H].
    destruct (H "/app/questions.json"
                [("Geography", [Examples.stray_item])]
                eq_refl eq_refl) as [_ Hok].
    destruct Hok as (qs & Hqs & _).
    + repeat constructor.
    + exists qs. exact Hqs.
Defined.

(** C2, as stated, fails: the sample record answers "Pacific", which is
    none of its options, and the bank made of it loads without error. *)
Lemma load_accepts_unlisted_answer :
  ~ load_as_specified
      (Examples.app_env [("Geography", [Examples.stray_item])])
      "questions.json".
Proof.
  intros [_ H].
  specialize (H "/app/questions.json"
                [("Geography", [Examples.stray_item])] eq_refl eq_refl).
  assert (Hr : raised
                 (load_questions
                    (Examples.app_env
                       [("Geography", [Examples.stray_item])])
                    "questions.json") = true).
  { apply H. constructor. right. exact stray_item_unlisted. }
  vm_compute in Hr. discriminate Hr.
Qed.

End LoaderFacts.

(** ** The attempt log *)

Module DBFacts.

Import Py DB.
Local Open Scope list_scope.

Lemma max_id_bound (l : list row) (m : Z) :
  Forall (fun r => id r <= fold_right (fun r m => Z.max (id r) m) m l) l.
Proof.
  induction l as [|a l IH]; constructor; cbn.
  - lia.
  - eapply Forall_impl; [exact IH|]. cbn. intros r Hr. lia.
Qed.

(** The key of a new row is above every key in the table. *)
Lemma next_id_above (db : t) :
  Forall (fun r => id r < next_id db) (attempts db).
Proof.
  unfold next_id.
  eapply Forall_impl; [apply (max_id_bound (attempts db) (sequence db))|].
  cbn. intros r Hr. lia.
Qed.

(** A row whose key is above all others sorts to the front. *)
Lemma order_by_id_desc_snoc (l : list row) (r : row) :
  Forall (fun x => id x < id r) l ->
  order_by_id_desc (l ++ [r]) = r :: order_by_id_desc l.
Proof.
  unfold order_by_id_desc.
  induction l as [|a l IH]; intros Hall; [reflexivity|].
  apply Forall_cons in Hall as [Ha Hall].
  cbn. rewrite (IH Hall). cbn.
  destruct (Z.ltb_spec (id r) (id a)) as [?|_]; [lia|reflexivity].
Qed.

(** A storable record passes every check of the [INSERT]. *)
Lemma storable_check db ts c d s n dur :
  storable db (ts, c, d, s, n, dur) = true ->
  insert_check ts c d s n dur db = Returns tt.
Proof.
  unfold storable. rewrite !andb_true_iff, !Z.leb_le.
  intros [[[[[[[H1 H2] H3] H4] H5] H6] H7] H8].
  assert (Hlim : max_length < int_max) by reflexivity.
  unfold insert_check, bind_text, bind_int.
  repeat match goal with
         | |- context [?a <? ?b] =>
             destruct (Z.ltb_spec a b) as [?|_]; [lia|]
         end.
  now rewrite H4, H5, H6.
Qed.

Lemma save_storable db ts c d s n dur :
  storable db (ts, c, d, s, n, dur) = true ->
  save_attempt ts c d s n dur db
  = (Returns tt,
     {| attempts :=
          attempts db
          ++ [{| id := next_id db; timestamp := ts; category := c;
                 difficulty := d; score := s; total := n;
                 duration_seconds := dur |}];
        sequence := next_id db |}).
Proof.
  intros H. unfold save_attempt. now rewrite (storable_check _ _ _ _ _ _ _ H).
Qed.

Lemma check_storable db ts c d s n dur :
  insert_check ts c d s n dur db = Returns tt ->
  storable db (ts, c, d, s, n, dur) = true.
Proof.
  unfold insert_check, bind_text, bind_int, storable.
  destruct (Z.ltb_spec int_max (bytes ts)); [discriminate|].
  destruct (Z.ltb_spec max_length (bytes ts)); [discriminate|].
  cbn [bind].
  destruct (Z.ltb_spec int_max (bytes c)); [discriminate|].
  destruct (Z.ltb_spec max_length (bytes c)); [discriminate|].
  cbn [bind].
  destruct (Z.ltb_spec int_max (bytes d)); [discriminate|].
  destruct (Z.ltb_spec max_length (bytes d)); [discriminate|].
  cbn [bind].
  destruct (int64 s); [|discriminate]. cbn [bind].
  destruct (int64 n); [|discriminate]. cbn [bind].
  destruct (int64 dur); [|discriminate]. cbn [bind].
  destruct (Z.ltb_spec max_int64 (next_id db)); [discriminate|].
  cbn [bind].
  destruct (Z.ltb_spec max_length (record_size ts c d s n dur));
    [discriminate|].
  intros _. rewrite !andb_true_iff, !Z.leb_le. repeat split; assumption.
Qed.

(** A record that is not storable is refused, and the log stays as it
    is. *)
Lemma save_not_storable db ts c d s n dur :
  storable db (ts, c, d, s, n, dur) = false ->
  exists x, save_attempt ts c d s n dur db = (Raises x, db).
Proof.
  intros H. unfold save_attempt.
  destruct (insert_check ts c d s n dur db) as [[]|x] eqn:E; [|eauto].
  apply check_storable in E. congruence.
Qed.

Lemma select_after_save db ts c d s n dur limit :
  storable db (ts, c, d, s, n, dur) = true ->
  1 <= limit ->
  select_recent limit (snd (save_attempt ts c d s n dur db))
  = (ts, c, d, s, n, dur) :: select_recent (limit - 1) db.
Proof.
  intros Hs Hl. rewrite (save_storable _ _ _ _ _ _ _ Hs).
  unfold select_recent. cbn [snd attempts].
  rewrite order_by_id_desc_snoc by apply next_id_above.
  unfold limit_rows.
  destruct (Z.ltb_spec limit 0) as [?|_]; [lia|].
  destruct (Z.ltb_spec (limit - 1) 0) as [?|_]; [lia|].
  replace (Z.to_nat limit) with (S (Z.to_nat (limit - 1))) by lia.
  reflexivity.
Qed.

Lemma recent_int64 limit db :
  int64 limit = true ->
  recent_attempts limit db = Returns (select_recent limit db).
Proof. intros H. unfold recent_attempts, bind_int. now rewrite H. Qed.




End DBFacts.

(** ** More on the engine *)

Module EngineExtra.

Import Py QuizEngine EngineFacts.
Local Open Scope list_scope.

(** *** The pool *)

Lemma filter_pool_In qs cat diff q :
  In q (filter_pool qs cat diff) <-> In q qs /\ matches cat diff q.
Proof.
  unfold filter_pool, matches.
  destruct (String.eqb_spec diff "Any") as [Hd|Hd]; cbn [negb].
  - rewrite filter_In, orb_true_iff, !String.eqb_eq. intuition.
  - rewrite !filter_In, orb_true_iff, !String.eqb_eq. intuition.
Qed.

Lemma filter_sublist {A} (f : A -> bool) (l : list A) :
  List.filter f l `sublist_of` l.
Proof.
  induction l as [|a l IH]; cbn; [constructor|].
  destruct (f a); now constructor.
Qed.

Lemma filter_pool_sublist qs cat diff :
  filter_pool qs cat diff `sublist_of` qs.
Proof.
  unfold filter_pool.
  destruct (negb (String.eqb diff "Any")).
  - etransitivity; apply filter_sublist.
  - apply filter_sublist.
Qed.

Lemma start_pool e cat diff count now :
  pool (snd (start cat diff count now e))
  = filter_pool (questions_all e) cat diff.
Proof.
  destruct (filter_pool (questions_all e) cat diff) as [|q0 p] eqn:Hp.
  - now rewrite (start_raises e cat diff count now Hp).
  - destruct (start_returns e cat diff count now) as (x & g' & _ & _ & ->);
      [rewrite Hp; discriminate|].
    cbn. exact Hp.
Qed.

Lemma passes_matches cat diff q :
  passes cat diff q = true <-> matches cat diff q.
Proof.
  unfold passes, matches.
  now rewrite andb_true_iff, !orb_true_iff, !String.eqb_eq.
Qed.

(** The two filters of [start] amount to one pass over the store. *)
Lemma filter_pool_passes qs cat diff :
  filter_pool qs cat diff = List.filter (passes cat diff) qs.
Proof.
  unfold filter_pool, passes.
  destruct (String.eqb diff "Any"); cbn [negb orb].
  - induction qs as [|q qs IH]; [reflexivity|]. cbn [List.filter].
    rewrite IH, andb_true_r. reflexivity.
  - induction qs as [|q qs IH]; [reflexivity|]. cbn [List.filter].
    destruct (String.eqb cat "Any" || String.eqb (Question.category q) cat);
      cbn [List.filter andb]; rewrite IH; reflexivity.
Qed.

(** X1.  Whether it succeeds or raises, [start] leaves in [pool] the store
    with the questions that fail a filter taken out and nothing else
    changed: exactly the stored questions that pass both filters, each as
    often and in the order in which the store holds it. *)
Theorem start_pool_matches e cat diff count now q :
  let e' := snd (start cat diff count now e) in
  pool e' = List.filter (passes cat diff) (questions_all e) /\
  (passes cat diff q = true <-> matches cat diff q) /\
  pool e' `sublist_of` questions_all e /\
  (In q (pool e') <-> In q (questions_all e) /\ matches cat diff q).
Proof.
  cbv zeta. rewrite start_pool. split; [|split; [|split]].
  - apply filter_pool_passes.
  - apply passes_matches.
  - apply filter_pool_sublist.
  - apply filter_pool_In.
Qed.

Lemma filter_pool_any qs : filter_pool qs "Any" "Any" = qs.
Proof.
  unfold filter_pool. cbn. induction qs as [|q qs IH]; cbn; congruence.
Qed.

(** X2.  With both filters "Any" the pool is the whole store, so
    [start("Any", "Any", count)] raises exactly when the store is empty. *)
Theorem start_any_any e count now :
  pool (snd (start "Any" "Any" count now e)) = questions_all e /\
  (fst (start "Any" "Any" count now e) = Raises no_match
   <-> questions_all e = []) /\
  (fst (start "Any" "Any" count now e) = Returns tt
   <-> questions_all e <> []).
Proof.
  split; [now rewrite start_pool, filter_pool_any|].
  destruct (questions_all e) as [|q qs] eqn:Hq.
  - rewrite (start_raises e "Any" "Any" count now)
      by now rewrite Hq, filter_pool_any.
    cbn. split; split; try easy.
  - destruct (start_returns e "Any" "Any" count now)
      as (x & g' & _ & _ & ->); [now rewrite Hq, filter_pool_any|].
    cbn. split; split; try easy.
Qed.

Lemma start_succeeds e cat diff count now :
  filter_pool (questions_all e) cat diff <> [] ->
  fst (start cat diff count now e) = Returns tt.
Proof.
  intros Hp.
  now destruct (start_returns e cat diff count now Hp)
    as (x & g' & _ & _ & ->).
Qed.

Lemma filter_pool_inhabited qs cat diff q :
  In q qs -> matches cat diff q -> filter_pool qs cat diff <> [].
Proof.
  intros Hin Hm Hnil.
  assert (H : In q (filter_pool qs cat diff))
    by (apply filter_pool_In; now split).
  now rewrite Hnil in H.
Qed.

(** X3.  A filter taken from a stored question always finds something:
    for any question [q] of the store, [start] succeeds with [q]'s
    category, with [q]'s difficulty, and with both, and [q] is in the
    pool. *)
Theorem start_with_stored_filters e q count now :
  In q (questions_all e) ->
  let c := Question.category q in
  let d := Question.difficulty q in
  fst (start c "Any" count now e) = Returns tt /\
  fst (start "Any" d count now e) = Returns tt /\
  fst (start c d count now e) = Returns tt /\
  In q (pool (snd (start c d count now e))).
Proof.
  intros Hin c d.
  assert (H1 : matches c "Any" q) by (split; auto).
  assert (H2 : matches "Any" d q) by (split; auto).
  assert (H3 : matches c d q) by (split; auto).
  repeat split.
  - eapply start_succeeds, filter_pool_inhabited; eassumption.
  - eapply start_succeeds, filter_pool_inhabited; eassumption.
  - eapply start_succeeds, filter_pool_inhabited; eassumption.
  - rewrite start_pool. apply filter_pool_In. now split.
Qed.

Lemma start_with_stored_filters_witness :
  In (Examples.mk "Math" "2 + 2?" ["3"; "4"; "5"; "6"] "4" "Easy")
     (questions_all Examples.sample_engine) /\
  fst (start "Math" "Easy" 5 Examples.t0 Examples.sample_engine)
    = Returns tt.
Proof.
  assert (Hin : In (Examples.mk "Math" "2 + 2?" ["3"; "4"; "5"; "6"] "4"
                      "Easy") (questions_all Examples.sample_engine)).
  { cbn. auto. }
  split; [exact Hin|].
  destruct (start_with_stored_filters Examples.sample_engine _ 5
              Examples.t0 Hin) as (_ & _ & H & _).
  exact H.
Defined.

(** *** Starting over *)

(** X4.  A successful [start] leaves nothing of the session before it:
    two engines with the same store and the same generator state end in
    the same state, whatever pool, order, position, score, timestamp and
    filters each held. *)
Theorem start_forgets_previous e1 e2 cat diff count now :
  questions_all e1 = questions_all e2 ->
  rng e1 = rng e2 ->
  filter_pool (questions_all e1) cat diff <> [] ->
  start cat diff count now e1 = start cat diff count now e2.
Proof.
  intros Hq Hr Hp.
  destruct (start_returns e1 cat diff count now Hp)
    as (x1 & g1 & Hs1 & _ & ->).
  rewrite Hq in Hp.
  destruct (start_returns e2 cat diff count now Hp)
    as (x2 & g2 & Hs2 & _ & ->).
  rewrite Hq, Hr in Hs1. rewrite Hs1 in Hs2.
  injection Hs2 as -> ->. now rewrite Hq.
Qed.

Lemma start_forgets_previous_witness :
  questions_all Examples.sample_session
    = questions_all (snd (reset_state Examples.sample_session)) /\
  start "Science" "Any" 2 Examples.t0 Examples.sample_session
  = start "Science" "Any" 2 Examples.t0
      (snd (reset_state Examples.sample_session)).
Proof.
  split; [reflexivity|].
  apply (start_forgets_previous Examples.sample_session
           (snd (reset_state Examples.sample_session)));
    [reflexivity | reflexivity | discriminate].
Defined.

(** X5.  A [start] that finds no question raises after it has emptied the
    pool and overwritten the filters, and with the order, position, score
    and timestamp of the engine untouched.  If a session was in progress,
    its order now points into an empty pool: [current] and [submit] raise
    [IndexError] and the position no longer moves. *)
Theorem failed_start_breaks_session e cat diff count now sel :
  filter_pool (questions_all e) cat diff = [] ->
  0 <= index e < total e ->
  let e' := snd (start cat diff count now e) in
  fst (start cat diff count now e) = Raises no_match /\
  pool e' = [] /\ category e' = cat /\ difficulty e' = diff /\
  order e' = order e /\ index e' = index e /\ score e' = score e /\
  started_at e' = started_at e /\
  is_finished e' = false /\
  current e' = (Raises IndexError, e') /\
  submit sel e' = (Raises IndexError, e').
Proof.
  intros Hp Hi e'. subst e'.
  rewrite (start_raises e cat diff count now Hp). cbn [fst snd].
  set (e' := with_pool [] (with_difficulty diff (with_category cat e))).
  assert (Hcur : current e' = (Raises IndexError, e')).
  { unfold current. run.
    destruct (getitem_in_range (order e) (index e) Hi) as (k & _ & ->).
    now rewrite (getitem_past_end [] (Z.of_nat k)) by (unfold len; cbn; lia). }
  repeat split; try exact Hcur.
  - unfold is_finished, total. cbn. apply Z.leb_gt. unfold total in Hi. lia.
  - unfold submit, bind. now rewrite Hcur.
Qed.

Lemma failed_start_breaks_session_witness :
  filter_pool (questions_all Examples.sample_session) "History" "Hard" = [] /\
  0 <= index Examples.sample_session < total Examples.sample_session /\
  fst (current Examples.sample_session)
    = Returns (Examples.mk "Science" "H2O is?"
                 ["Water"; "Salt"; "Gold"; "Air"] "Water" "Easy") /\
  fst (current (snd (start "History" "Hard" 5 Examples.t0
                       Examples.sample_session))) = Raises IndexError.
Proof.
  split; [reflexivity|]. split; [split; [discriminate|reflexivity]|].
  split; [reflexivity|].
  destruct (failed_start_breaks_session Examples.sample_session
              "History" "Hard" 5 Examples.t0 None)
    as (_ & _ & _ & _ & _ & _ & _ & _ & _ & Hc & _);
    [reflexivity | split; [discriminate|reflexivity] |].
  now rewrite Hc.
Defined.

(** *** Inside a session *)

Lemma submit_at e sel :
  session e -> index e < total e ->
  exists k q,
    order e !! Z.to_nat (index e) = Some k /\
    pool e !! k = Some q /\
    current e = (Returns q, e) /\
    submit sel e =
      (Returns (eq_opt_str sel (Question.answer q)),
       with_index (index e + 1)
         (if eq_opt_str sel (Question.answer q)
          then with_score (score e + 1) e else e)).
Proof.
  intros [[Hs Hi] [_ Hin]] Hlt.
  destruct (getitem_in_range (order e) (index e)) as (k & Hk & Hgk);
    [unfold total in Hlt; lia|].
  assert (Hkp : (k < length (pool e))%nat).
  { rewrite Forall_lookup in Hin. exact (Hin _ _ Hk). }
  destruct (getitem_in_range (pool e) (Z.of_nat k)) as (q & Hq & Hgq);
    [unfold len; lia|].
  rewrite Nat2Z.id in Hq.
  exists k, q. split; [exact Hk|]. split; [exact Hq|].
  unfold submit, current. run. rewrite Hgk, Hgq. split; [easy|].
  now destruct (eq_opt_str sel (Question.answer q)).
Qed.

Lemma submits_frame sels e :
  let e' := submits sels e in
  questions_all e' = questions_all e /\ rng e' = rng e /\
  pool e' = pool e /\ order e' = order e /\
  started_at e' = started_at e /\ category e' = category e /\
  difficulty e' = difficulty e.
Proof.
  revert e. induction sels as [|sel sels IH]; intros e; [easy|].
  change (submits (sel :: sels) e) with (submits sels (snd (submit sel e))).
  cbv zeta.
  destruct (IH (snd (submit sel e))) as (-> & -> & -> & -> & -> & -> & ->).
  apply submit_frame.
Qed.

Lemma start_fields e cat diff count now :
  filter_pool (questions_all e) cat diff <> [] ->
  let e0 := snd (start cat diff count now e) in
  index e0 = 0 /\ score e0 = 0 /\ started_at e0 = now /\
  category e0 = cat /\ difficulty e0 = diff /\
  questions_all e0 = questions_all e /\
  total e0 = Z.min (Z.max 1 count) (len (pool e0)) /\
  0 < len (pool e0).
Proof.
  intros Hp e0. subst e0.
  destruct (start_returns e cat diff count now Hp)
    as (x & g' & _ & Hperm & ->).
  cbn [snd index score started_at category difficulty questions_all pool].
  set (p := filter_pool (questions_all e) cat diff) in *.
  assert (Hlen : 0 < len p).
  { unfold len. destruct p; [contradiction|]. cbn. lia. }
  assert (Hx : len x = len p).
  { unfold len. now rewrite Hperm, length_seq. }
  repeat split; try assumption.
  unfold total. cbn [order].
  now apply slice_to_prefix; lia.
Qed.

(** X6.  A session is never empty and never shows a question from outside
    the filters: right after a successful [start] the engine is not
    finished, and at every point of the session that is not finished
    [current] returns, without changing the engine, a question of the
    store that passes the category and difficulty filters. *)
Theorem current_in_session e cat diff count now sels :
  filter_pool (questions_all e) cat diff <> [] ->
  let e0 := snd (start cat diff count now e) in
  let e' := submits sels e0 in
  is_finished e0 = false /\
  (is_finished e' = false ->
   exists q, current e' = (Returns q, e') /\
             In q (questions_all e) /\ matches cat diff q).
Proof.
  intros Hp e0 e'.
  destruct (start_fields e cat diff count now Hp)
    as (Hi0 & _ & _ & _ & _ & _ & Ht0 & Hl0).
  fold e0 in Hi0, Ht0, Hl0. split.
  - unfold is_finished. apply Z.leb_gt. lia.
  - intros Hnf. unfold is_finished in Hnf. apply Z.leb_gt in Hnf.
    pose proof (start_session e cat diff count now Hp) as He0.
    destruct (submits_session sels e0 He0) as (He' & _).
    fold e' in He'.
    destruct (submit_at e' None He' Hnf) as (k & q & _ & Hq & Hcur & _).
    exists q. split; [exact Hcur|].
    destruct (submits_frame sels e0) as (_ & _ & Hpool & _).
    fold e' in Hpool. rewrite Hpool in Hq. unfold e0 in Hq.
    rewrite start_pool in Hq.
    apply filter_pool_In, list_elem_of_In, list_elem_of_lookup. eauto.
Qed.

Lemma current_in_session_witness :
  filter_pool (questions_all Examples.sample_engine) "Science" "Any" <> [] /\
  is_finished
    (submits [Some "Water"]
       (snd (start "Science" "Any" 2 Examples.t0 Examples.sample_engine)))
  = false /\
  exists q,
    fst (current
           (submits [Some "Water"]
              (snd (start "Science" "Any" 2 Examples.t0
                      Examples.sample_engine)))) = Returns q /\
    matches "Science" "Any" q.
Proof.
  split; [discriminate|]. split; [reflexivity|].
  destruct (current_in_session Examples.sample_engine "Science" "Any" 2
              Examples.t0 [Some "Water"]) as [_ H]; [discriminate|].
  destruct (H eq_refl) as (q & Hq & _ & Hm).
  exists q. split; [now rewrite Hq | exact Hm].
Defined.

(** X7.  When the requested count is at least the size of the pool, the
    session asks every question of the pool exactly once: the order is a
    permutation of all pool indices. *)
Theorem start_covers_pool e cat diff count now :
  let p := filter_pool (questions_all e) cat diff in
  p <> [] ->
  len p <= count ->
  let e0 := snd (start cat diff count now e) in
  order e0 ≡ₚ seq 0 (length p) /\ total e0 = len p.
Proof.
  intros p Hp Hc e0. subst e0.
  destruct (start_returns e cat diff count now Hp)
    as (x & g' & _ & Hperm & ->).
  fold p in Hperm |- *. unfold total. cbn [snd order].
  assert (Hlen : 0 < len p).
  { unfold len. destruct p; [contradiction|]. cbn. lia. }
  assert (Hx : length x = length p) by now rewrite Hperm, length_seq.
  replace (Z.min (Z.max 1 count) (len p)) with (len x)
    by (unfold len in *; lia).
  destruct (slice_to_prefix x (len x)) as [-> _];
    [pose proof (len_nonneg x); lia|].
  unfold len. rewrite Nat2Z.id, firstn_all.
  split; [exact Hperm | now rewrite Hx].
Qed.

Lemma start_covers_pool_witness :
  filter_pool (questions_all Examples.sample_engine) "Any" "Any" <> [] /\
  len (filter_pool (questions_all Examples.sample_engine) "Any" "Any")
    <= 50 /\
  order (snd (start "Any" "Any" 50 Examples.t0 Examples.sample_engine))
    ≡ₚ [0; 1; 2; 3]%nat.
Proof.
  split; [discriminate|]. split; [discriminate|].
  apply (start_covers_pool Examples.sample_engine "Any" "Any" 50
           Examples.t0); discriminate.
Defined.

Lemma tally_nil_sels pool o : tally pool o [] = 0.
Proof. now destruct o. Qed.

Lemma submits_score sels e :
  session e ->
  score (submits sels e)
  = score e + tally (pool e) (drop (Z.to_nat (index e)) (order e)) sels.
Proof.
  revert e. induction sels as [|sel sels IH]; intros e He.
  - rewrite tally_nil_sels. cbn. lia.
  - change (submits (sel :: sels) e)
      with (submits sels (snd (submit sel e))).
    rewrite (IH _ (submit_session e sel He)).
    destruct He as [[Hs Hi] Ho].
    destruct (Z_lt_le_dec (index e) (total e)) as [Hlt|Hge].
    + destruct (submit_at e sel (conj (conj Hs Hi) Ho) Hlt)
        as (k & q & Hk & Hq & _ & ->).
      cbn [snd]. rewrite (drop_S _ _ _ Hk). cbn [tally]. rewrite Hq.
      assert (Hn : Z.to_nat (index e + 1) = S (Z.to_nat (index e))) by lia.
      destruct (eq_opt_str sel (Question.answer q)); cbn; rewrite Hn; lia.
    + rewrite (submit_raises e sel Hge). cbn [snd].
      rewrite drop_ge by (unfold total, len in Hge; lia).
      reflexivity.
Qed.

(** X8.  The score of a session is the number of questions answered
    correctly: after any sequence of [submit] calls on a freshly started
    session, the score counts the positions at which the selection equals
    the answer of the question asked there, the position is the number of
    calls capped at the number of questions, and selections beyond the
    last question count for nothing. *)
Theorem score_counts_correct e cat diff count now sels :
  filter_pool (questions_all e) cat diff <> [] ->
  let e0 := snd (start cat diff count now e) in
  let e' := submits sels e0 in
  score e' = tally (pool e0) (order e0) sels /\
  index e' = Z.min (len sels) (total e0) /\
  0 <= score e' <= index e'.
Proof.
  intros Hp e0 e'.
  pose proof (start_session e cat diff count now Hp) as He0. fold e0 in He0.
  destruct (start_fields e cat diff count now Hp) as (Hi0 & Hs0 & _).
  fold e0 in Hi0, Hs0.
  destruct (submits_session sels e0 He0) as ([[Hs _] _] & _ & Hi).
  fold e' in Hs, Hi. rewrite Hi0 in Hi.
  split; [|split; [exact Hi | exact Hs]].
  unfold e'. rewrite (submits_score sels e0 He0), Hi0, Hs0.
  change (Z.to_nat 0) with 0%nat. rewrite drop_0. lia.
Qed.

Lemma score_counts_correct_witness :
  filter_pool (questions_all Examples.sample_engine) "Any" "Any" <> [] /\
  score (submits [Some "Water"; None; Some "Mars"; Some "Washington"]
           Examples.sample_session) = 2.
Proof.
  split; [discriminate|].
  destruct (score_counts_correct Examples.sample_engine "Any" "Any" 3
              Examples.t0 [Some "Water"; None; Some "Mars";
                           Some "Washington"]) as (H & _);
    [discriminate|].
  exact H.
Defined.

(** *** The idle engine *)

(** X10.  An idle engine has no questions and already counts as finished:
    [total] is 0, [is_finished] is true, and [current] raises [IndexError]
    without changing the engine. *)
Theorem idle_is_finished e :
  idle e ->
  total e = 0 /\ is_finished e = true /\
  current e = (Raises IndexError, e).
Proof.
  intros Hidle.
  destruct (idle_fields e Hidle) as (_ & Ho & Hi & _).
  unfold is_finished, total, current. run. rewrite Ho, Hi.
  repeat split.
Qed.

Lemma idle_is_finished_witness :
  idle Examples.sample_engine /\
  is_finished Examples.sample_engine = true /\
  current Examples.sample_engine = (Raises IndexError, Examples.sample_engine).
Proof.
  split; [reflexivity|].
  destruct (idle_is_finished Examples.sample_engine) as (_ & Hf & Hc);
    [reflexivity|].
  split; [exact Hf | exact Hc].
Defined.

End EngineExtra.

(** ** More on the loader *)

Module LoaderExtra.

Import Py Loader LoaderFacts.
Local Open Scope list_scope.

Lemma first_missing_complete q : first_missing q = None <-> complete q = true.
Proof.
  unfold first_missing, complete.
  destruct (j_question q), (j_options q), (j_answer q); easy.
Qed.

Lemma make_question_missing c q key :
  first_missing q = Some key -> make_question c q = Raises (KeyError key).
Proof.
  unfold first_missing, make_question.
  destruct (j_question q), (j_options q), (j_answer q); cbn;
    intros [= <-]; reflexivity.
Qed.

(** The inner loop stops at the first object that lacks a key. *)
Lemma load_items_stops c pre q post out key :
  Forall (fun x => complete x = true) pre ->
  first_missing q = Some key ->
  load_items c (pre ++ q :: post) out = Raises (KeyError key).
Proof.
  revert out. induction pre as [|x pre IH]; intros out Hpre Hq; cbn.
  - now rewrite (make_question_missing c q key Hq).
  - apply Forall_cons in Hpre as [Hx Hpre].
    destruct (make_question_complete c x Hx) as (y & -> & _). cbn.
    now apply IH.
Qed.

(** X11.  Loading stops at the first incomplete record in document order
    and reports the first key that record lacks: when every record of the
    categories before [c] is complete, the records [pre] before [q] in
    category [c] are complete, and [q] lacks [key] first, [load_questions]
    raises [KeyError key], whatever follows [q] in the document. *)
Theorem load_reports_first_missing v path candidate before c pre q post
    after key :
  locate v path = Some candidate ->
  files v candidate
    = Some (Json (before ++ (c, pre ++ q :: post) :: after)) ->
  Forall (fun cq => complete (snd cq) = true) (items_of before) ->
  Forall (fun x => complete x = true) pre ->
  first_missing q = Some key ->
  load_questions v path = Raises (KeyError key).
Proof.
  intros Hloc Hfile Hbefore Hpre Hq.
  unfold load_questions. rewrite Hloc, Hfile. clear Hloc Hfile.
  generalize (@nil Question.t) as out.
  induction before as [|[c0 items0] before IH]; intros out; cbn.
  - now rewrite (load_items_stops c pre q post out key Hpre Hq).
  - unfold items_of in Hbefore. cbn in Hbefore.
    apply Forall_app in Hbefore as [Hhere Hrest].
    rewrite Forall_map in Hhere.
    destruct (load_items_complete c0 items0 out Hhere) as (qs & -> & _).
    cbn. apply IH. exact Hrest.
Qed.

Lemma load_reports_first_missing_witness :
  first_missing Examples.partial_item = Some "answer" /\
  load_questions
    (Examples.app_env
       [("Oceans", [Examples.stray_item]);
        ("Seas", [Examples.stray_item; Examples.partial_item;
                  Examples.headless_item])])
    "questions.json" = Raises (KeyError "answer").
Proof.
  split; [reflexivity|].
  apply (load_reports_first_missing _ "questions.json" "/app/questions.json"
           [("Oceans", [Examples.stray_item])] "Seas"
           [Examples.stray_item] Examples.partial_item
           [Examples.headless_item] [] "answer").
  - reflexivity.
  - reflexivity.
  - repeat constructor.
  - repeat constructor.
  - reflexivity.
Defined.

End LoaderExtra.

(** ** More on the attempt log *)

Module DBExtra.

Import Py DB DBFacts.
Local Open Scope list_scope.

Lemma insert_desc_length r l :
  length (insert_desc r l) = S (length l).
Proof.
  induction l as [|x l IH]; cbn; [reflexivity|].
  destruct (id x <? id r); cbn; congruence.
Qed.

Lemma order_by_id_desc_length l : length (order_by_id_desc l) = length l.
Proof.
  unfold order_by_id_desc. induction l as [|x l IH]; cbn; [reflexivity|].
  now rewrite insert_desc_length, IH.
Qed.

(** X12.  [recent_attempts] never returns more rows than asked for and
    never fewer than there are: for a limit that is a signed 64-bit
    integer it returns [min(limit, number of rows)] records when the limit
    is not negative, none from an empty log, and one record per row when
    it is negative; any other limit raises [OverflowError]. *)
Theorem recent_attempts_length limit db :
  (int64 limit = true ->
   exists rows,
     recent_attempts limit db = Returns rows /\
     len rows = if limit <? 0 then len (attempts db)
                else Z.min limit (len (attempts db))) /\
  (int64 limit = false -> recent_attempts limit db = Raises OverflowError).
Proof.
  split; intros H.
  - exists (select_recent limit db). split; [now apply recent_int64|].
    unfold select_recent, limit_rows, len.
    destruct (Z.ltb_spec limit 0) as [Hneg|Hpos].
    + now rewrite length_map, order_by_id_desc_length.
    + rewrite length_map, length_take, order_by_id_desc_length. lia.
  - unfold recent_attempts, bind_int. now rewrite H.
Qed.

Lemma recent_attempts_length_witness :
  int64 20 = true /\ int64 (2 ^ 63) = false /\
  (exists rows,
      recent_attempts 20 Examples.sample_db = Returns rows /\ len rows = 1) /\
  recent_attempts (2 ^ 63) Examples.sample_db = Raises OverflowError.
Proof.
  split; [reflexivity|]. split; [reflexivity|]. split.
  - destruct (recent_attempts_length 20 Examples.sample_db) as [H _].
    destruct (H eq_refl) as (rows & Hr & Hl).
    exists rows. split; [exact Hr | exact Hl].
  - destruct (recent_attempts_length (2 ^ 63) Examples.sample_db) as [_ H].
    exact (H eq_refl).
Defined.





End DBExtra.

(** ** The quiz flow *)

Module AppFacts.

Import Py QuizEngine EngineFacts EngineExtra FlashcardApp.
Local Open Scope list_scope.

Lemma with_engine_same a : with_engine (engine a) a = a.
Proof. now destruct a. Qed.

(** What [display_question] does while questions remain. *)
Lemma display_unfinished now ts a :
  session (engine a) -> index (engine a) < total (engine a) ->
  display_question now ts a
  = (Returns tt, with_time_left (time_limit a) a).
Proof.
  intros He Hlt. unfold display_question, is_finished.
  destruct (Z.leb_spec (total (engine a)) (index (engine a))) as [?|_];
    [lia|].
  destruct (submit_at (engine a) None He Hlt) as (_ & q & _ & _ & -> & _).
  now rewrite with_engine_same.
Qed.

Lemma display_finished now ts a :
  total (engine a) <= index (engine a) ->
  display_question now ts a = finish now ts a.
Proof.
  intros Hge. unfold display_question, is_finished.
  now destruct (Z.leb_spec (total (engine a)) (index (engine a))) as [_|?];
    [|lia].
Qed.

(** The three cases of [on_answer]: questions remain afterwards, the last
    question was answered, nothing was left to answer. *)
Lemma on_answer_mid c now ts a :
  session (engine a) -> index (engine a) + 1 < total (engine a) ->
  on_answer c now ts a
  = (Returns tt,
     with_time_left (time_limit a)
       (with_engine (snd (submit c (engine a))) a)).
Proof.
  intros He Hlt. unfold on_answer.
  pose proof (submit_session (engine a) c He) as He1.
  destruct (submit_at (engine a) c He ltac:(lia))
    as (_ & q & _ & _ & _ & Hsub).
  rewrite Hsub in He1 |- *. cbn [snd] in He1 |- *.
  rewrite display_unfinished; [reflexivity|exact He1|].
  destruct (eq_opt_str c (Question.answer q)); cbn; unfold total in *;
    cbn; lia.
Qed.

Lemma on_answer_last c now ts a :
  session (engine a) -> index (engine a) + 1 = total (engine a) ->
  on_answer c now ts a
  = finish now ts (with_engine (snd (submit c (engine a))) a).
Proof.
  intros He Hlt. unfold on_answer.
  destruct (submit_at (engine a) c He ltac:(lia))
    as (_ & q & _ & _ & _ & Hsub).
  rewrite Hsub. cbn [snd].
  apply display_finished.
  destruct (eq_opt_str c (Question.answer q)); cbn; unfold total in *;
    cbn; lia.
Qed.

Lemma on_answer_done c now ts a :
  total (engine a) <= index (engine a) ->
  on_answer c now ts a = (Raises IndexError, a).
Proof.
  intros Hge. unfold on_answer.
  rewrite (submit_raises (engine a) c Hge).
  now rewrite with_engine_same.
Qed.

Lemma answer_all_done evs a :
  total (engine a) <= index (engine a) -> answer_all evs a = a.
Proof.
  intros Hge. induction evs as [|[[c now] ts] evs IH]; [reflexivity|].
  unfold answer_all in *. cbn [fold_left].
  now rewrite (on_answer_done c now ts a Hge).
Qed.

Lemma answer_all_mid evs a :
  session (engine a) ->
  index (engine a) + len evs < total (engine a) ->
  db (answer_all evs a) = db a /\
  engine (answer_all evs a) = submits (choices evs) (engine a) /\
  time_limit (answer_all evs a) = time_limit a.
Proof.
  revert a. induction evs as [|[[c now] ts] evs IH]; intros a He Hlt.
  - easy.
  - assert (Hlen : len (((c, now, ts)) :: evs) = len evs + 1)
      by (unfold len; cbn [length]; lia).
    pose proof (len_nonneg evs) as Hn.
    unfold answer_all. cbn [fold_left].
    rewrite (on_answer_mid c now ts a He) by lia. cbn [snd].
    fold (answer_all evs
            (with_time_left (time_limit a)
               (with_engine (snd (submit c (engine a))) a))).
    destruct (submit_at (engine a) c He ltac:(lia))
      as (_ & q & _ & _ & _ & Hsub).
    destruct (IH (with_time_left (time_limit a)
                    (with_engine (snd (submit c (engine a))) a)))
      as (Hd & Hen & Htl).
    + cbn. now apply submit_session.
    + cbn. rewrite Hsub. cbn.
      destruct (eq_opt_str c (Question.answer q)); cbn; unfold total in *;
        cbn; lia.
    + rewrite Hd, Hen, Htl. easy.
Qed.

Lemma choices_app evs1 evs2 :
  choices (evs1 ++ evs2) = choices evs1 ++ choices evs2.
Proof. apply map_app. Qed.

Lemma submits_app sels1 sels2 e :
  submits (sels1 ++ sels2) e = submits sels2 (submits sels1 e).
Proof. apply fold_left_app. Qed.

Lemma answer_all_app evs1 evs2 a :
  answer_all (evs1 ++ evs2) a = answer_all evs2 (answer_all evs1 a).
Proof. apply fold_left_app. Qed.

Lemma finish_stores now ts a dur :
  duration_seconds now (engine a) = Returns dur ->
  DB.storable (db a)
    (ts, category (engine a), difficulty (engine a), score (engine a),
     total (engine a), dur) = true ->
  finish now ts a
  = (Returns tt,
     with_db (snd (DB.save_attempt ts (category (engine a))
                     (difficulty (engine a)) (score (engine a))
                     (total (engine a)) dur (db a))) a).
Proof.
  intros Hd Hs. unfold finish. rewrite Hd.
  now rewrite (DBFacts.save_storable _ _ _ _ _ _ _ Hs).
Qed.

Lemma finish_engine now ts a : engine (snd (finish now ts a)) = engine a.
Proof.
  unfold finish.
  destruct (duration_seconds now (engine a)) as [dur|x]; [|reflexivity].
  now destruct (DB.save_attempt _ _ _ _ _ _ _) as [[[]|x] db'].
Qed.

(** X14.  Playing a session through [on_answer] logs it exactly once.  In
    a session of a fresh [start], the answers before the last leave the log
    alone; the last answer reads the duration and, the attempt being one
    SQLite can store, appends it with the filters, the number of correct
    answers, the number of questions and that duration, so that
    [recent_attempts(1)] returns it; and any [on_answer] after that changes
    nothing. *)
Theorem attempt_logged_once e cat diff count now0 a evs c now ts more dur :
  filter_pool (questions_all e) cat diff <> [] ->
  engine a = snd (start cat diff count now0 e) ->
  len evs + 1 = total (engine a) ->
  duration_seconds now (engine a) = Returns dur ->
  DB.storable (db a)
    (ts, cat, diff,
     tally (pool (engine a)) (order (engine a))
       (choices (evs ++ [(c, now, ts)])),
     total (engine a), dur) = true ->
  db (answer_all evs a) = db a /\
  db (answer_all (evs ++ [(c, now, ts)]) a)
  = snd (DB.save_attempt ts cat diff
           (tally (pool (engine a)) (order (engine a))
              (choices (evs ++ [(c, now, ts)])))
           (total (engine a)) dur (db a)) /\
  DB.recent_attempts 1 (db (answer_all (evs ++ [(c, now, ts)]) a))
  = Returns
      [(ts, cat, diff,
        tally (pool (engine a)) (order (engine a))
          (choices (evs ++ [(c, now, ts)])),
        total (engine a), dur)] /\
  answer_all ((evs ++ [(c, now, ts)]) ++ more) a
  = answer_all (evs ++ [(c, now, ts)]) a.
Proof.
  intros Hp Ha Hlen Hdur Hstore.
  pose proof (start_session e cat diff count now0 Hp) as He0.
  destruct (start_fields e cat diff count now0 Hp)
    as (Hi0 & Hs0 & Hst0 & Hc0 & Hd0 & _).
  rewrite <- Ha in He0, Hi0, Hs0, Hst0, Hc0, Hd0.
  set (e0 := engine a) in *.
  destruct (answer_all_mid evs a He0) as (Hdb & Hen & _); [fold e0; lia|].
  fold e0 in Hen.
  destruct (submits_session (choices evs) e0 He0) as (Hem & Htm & Him).
  assert (Hlc : len (choices evs) = len evs)
    by (unfold len, choices; now rewrite length_map).
  rewrite Hi0, Hlc in Him.
  set (am := answer_all evs a) in *.
  set (run := evs ++ [(c, now, ts)]) in *.
  set (ef := submits (choices run) e0).
  assert (Hef : snd (submit c (engine am)) = ef).
  { unfold ef, run. rewrite choices_app, submits_app, Hen. reflexivity. }
  destruct (submits_frame (choices run) e0)
    as (_ & _ & _ & Hof & Hstf & Hcf & Hdf).
  fold ef in Hof, Hstf, Hcf, Hdf.
  destruct (submits_session (choices run) e0 He0) as (_ & Htf & Hif).
  fold ef in Htf, Hif.
  assert (Hlr : len (choices run) = len evs + 1).
  { unfold len, choices, run. rewrite length_map, length_app. cbn. lia. }
  rewrite Hi0, Hlr in Hif.
  assert (Hscore : score ef = tally (pool e0) (order e0) (choices run)).
  { unfold ef. rewrite (submits_score _ e0 He0), Hs0, Hi0.
    change (Z.to_nat 0) with 0%nat. now rewrite drop_0, Z.add_0_l. }
  assert (Hdurf : duration_seconds now ef = Returns dur).
  { unfold duration_seconds in *. now rewrite Hstf. }
  assert (Hlast : answer_all run a
                  = with_db
                      (snd (DB.save_attempt ts cat diff
                              (tally (pool e0) (order e0) (choices run))
                              (total e0) dur (db a)))
                      (with_engine ef am)).
  { unfold run at 1. rewrite answer_all_app. fold am.
    unfold answer_all at 1. cbn [fold_left].
    rewrite on_answer_last; [| rewrite Hen; exact Hem | rewrite Hen; lia].
    rewrite Hef.
    rewrite (finish_stores now ts (with_engine ef am) dur).
    - cbn [snd engine with_engine db].
      now rewrite Hcf, Hc0, Hdf, Hd0, Htf, Hscore, Hdb.
    - exact Hdurf.
    - cbn [engine with_engine db].
      now rewrite Hcf, Hc0, Hdf, Hd0, Htf, Hscore, Hdb. }
  split; [exact Hdb|]. split; [now rewrite Hlast|]. split.
  - rewrite Hlast. cbn [db with_db].
    rewrite DBFacts.recent_int64 by reflexivity.
    now rewrite DBFacts.select_after_save by (assumption || lia).
  - rewrite answer_all_app. apply answer_all_done.
    rewrite Hlast. cbn. rewrite Htf, Hif. lia.
Qed.

Lemma attempt_logged_once_witness :
  filter_pool (questions_all Examples.sample_engine) "Any" "Any" <> [] /\
  len [(Some "Water", Examples.t0, "2026-11-03 10:00:05");
       (None, Examples.t0, "2026-11-03 10:00:25")] + 1
  = total (engine Examples.sample_app) /\
  duration_seconds (Examples.t0 + 31.5)%Q (engine Examples.sample_app)
  = Returns 31 /\
  DB.recent_attempts 1
    (db (answer_all
           ([(Some "Water", Examples.t0, "2026-11-03 10:00:05");
             (None, Examples.t0, "2026-11-03 10:00:25")]
            ++ [(Some "Mars", (Examples.t0 + 31.5)%Q,
                 "2026-11-03 10:00:31")])
           Examples.sample_app))
  = Returns [("2026-11-03 10:00:31", "Any", "Any", 2, 3, 31)].
Proof.
  assert (Hd : duration_seconds (Examples.t0 + 31.5)%Q
                 (engine Examples.sample_app) = Returns 31)
    by (now vm_compute).
  split; [discriminate|]. split; [reflexivity|]. split; [exact Hd|].
  destruct (attempt_logged_once Examples.sample_engine "Any" "Any" 3
              Examples.t0 Examples.sample_app
              [(Some "Water", Examples.t0, "2026-11-03 10:00:05");
               (None, Examples.t0, "2026-11-03 10:00:25")]
              (Some "Mars") (Examples.t0 + 31.5)%Q "2026-11-03 10:00:31" []
              31)
    as (_ & _ & H & _);
    [discriminate | reflexivity | reflexivity | exact Hd | reflexivity |].
  exact H.
Defined.

Lemma ticks_waiting clk a :
  len clk < time_left a ->
  ticks clk a = with_time_left (time_left a - len clk) a.
Proof.
  revert a. induction clk as [|[now ts] clk IH]; intros a Hlt.
  - unfold len. cbn. rewrite Z.sub_0_r. now destruct a.
  - assert (Hlen : len ((now, ts) :: clk) = len clk + 1)
      by (unfold len; cbn [length]; lia).
    pose proof (len_nonneg clk) as Hn.
    unfold ticks. cbn [fold_left]. unfold tick at 2. cbn [time_left
      with_time_left].
    destruct (Z.leb_spec (time_left a - 1) 0) as [?|_]; [lia|].
    cbn [snd fst].
    fold (ticks clk (with_time_left (time_left a - 1) a)).
    rewrite IH by (cbn; lia). cbn. rewrite Hlen.
    unfold with_time_left. cbn. f_equal. lia.
Qed.

(** X15.  An unanswered question times out as a wrong answer after exactly
    [time_limit] ticks.  Once [display_question] has shown a question of a
    session, the first [time_limit - 1] ticks change neither the engine nor
    the log, and the next tick submits [None]: the position moves on by one
    and the score stays. *)
Theorem timeout_counts_as_wrong a now0 ts0 clk now ts :
  session (engine a) ->
  index (engine a) < total (engine a) ->
  len clk + 1 = time_limit a ->
  let shown := snd (display_question now0 ts0 a) in
  let waiting := ticks clk shown in
  let expired := snd (tick now ts waiting) in
  engine waiting = engine a /\ db waiting = db a /\
  index (engine expired) = index (engine a) + 1 /\
  score (engine expired) = score (engine a).
Proof.
  intros He Hlt Hlen shown waiting expired.
  assert (Hshown : shown = with_time_left (time_limit a) a).
  { unfold shown. now rewrite display_unfinished. }
  assert (Hwait : waiting = with_time_left 1 a).
  { unfold waiting. rewrite Hshown, ticks_waiting by (cbn; lia).
    cbn. unfold with_time_left. cbn. f_equal. lia. }
  split; [now rewrite Hwait|]. split; [now rewrite Hwait|].
  unfold expired. rewrite Hwait. unfold tick. cbn [time_left with_time_left].
  change (1 - 1 <=? 0) with true. cbv iota. unfold on_answer.
  cbn [engine with_time_left].
  destruct (submit_at (engine a) None He Hlt) as (_ & q & _ & _ & _ & ->).
  cbn [eq_opt_str].
  set (e1 := with_index (index (engine a) + 1) (engine a)).
  assert (He1 : session e1).
  { pose proof (submit_session (engine a) None He) as H.
    destruct (submit_at (engine a) None He Hlt)
      as (_ & q' & _ & _ & _ & Hsub).
    now rewrite Hsub in H. }
  unfold display_question. cbn [engine with_engine with_time_left].
  destruct (is_finished e1) eqn:Hfin.
  - rewrite finish_engine. now cbn.
  - unfold is_finished in Hfin. apply Z.leb_gt in Hfin.
    destruct (submit_at e1 None He1 Hfin) as (_ & q1 & _ & _ & -> & _).
    now cbn.
Qed.

Lemma timeout_counts_as_wrong_witness :
  index (engine Examples.sample_app) < total (engine Examples.sample_app) /\
  len (repeat (Examples.t0, "2026-11-03 10:00:00") 19) + 1
  = time_limit Examples.sample_app /\
  index (engine
           (snd (tick Examples.t0 "2026-11-03 10:00:20"
                   (ticks (repeat (Examples.t0, "2026-11-03 10:00:00") 19)
                      (snd (display_question Examples.t0
                              "2026-11-03 10:00:00" Examples.sample_app))))))
  = 1.
Proof.
  split; [reflexivity|]. split; [reflexivity|].
  destruct (timeout_counts_as_wrong Examples.sample_app Examples.t0
              "2026-11-03 10:00:00"
              (repeat (Examples.t0, "2026-11-03 10:00:00") 19)
              Examples.t0 "2026-11-03 10:00:20")
    as (_ & _ & H & _);
    [apply start_session; discriminate | reflexivity | reflexivity |].
  exact H.
Defined.

(** X16.  "Play again" repeats the quiz that was played: at any point of a
    session begun by a successful [start], [_restart] returns normally and
    leaves a fresh session with the same filters, the same pool and the
    same number of questions, position and score back at 0, and the log
    untouched. *)
Theorem restart_same_quiz e cat diff count now0 sels a now now' ts :
  filter_pool (questions_all e) cat diff <> [] ->
  engine a = submits sels (snd (start cat diff count now0 e)) ->
  let a' := snd (_restart now now' ts a) in
  fst (_restart now now' ts a) = Returns tt /\
  pool (engine a') = pool (engine a) /\
  total (engine a') = total (engine a) /\
  category (engine a') = cat /\ difficulty (engine a') = diff /\
  index (engine a') = 0 /\ score (engine a') = 0 /\
  started_at (engine a') = now /\
  db a' = db a.
Proof.
  intros Hp Ha a'. subst a'.
  set (e0 := snd (start cat diff count now0 e)) in *.
  destruct (submits_frame sels e0) as (Hq & _ & Hpool & Hord & _ & Hc & Hd).
  rewrite <- Ha in Hq, Hpool, Hord, Hc, Hd.
  destruct (start_fields e cat diff count now0 Hp)
    as (_ & _ & _ & Hc0 & Hd0 & Hq0 & Ht0 & Hl0).
  fold e0 in Hc0, Hd0, Hq0, Ht0, Hl0.
  assert (Hp0 : pool e0 = filter_pool (questions_all e) cat diff)
    by apply start_pool.
  assert (Htot : total (engine a) = total e0)
    by (unfold total; now rewrite Hord).
  assert (Hp' : filter_pool (questions_all (engine a)) cat diff <> [])
    by now rewrite Hq, Hq0.
  pose proof (start_session (engine a) cat diff (total (engine a)) now Hp')
    as He1.
  destruct (start_fields (engine a) cat diff (total (engine a)) now Hp')
    as (Hi1 & Hs1 & Hst1 & Hc1 & Hd1 & _ & Ht1 & Hl1).
  pose proof (start_pool (engine a) cat diff (total (engine a)) now) as Hp1.
  pose proof (start_succeeds (engine a) cat diff (total (engine a)) now Hp')
    as Hok.
  unfold _restart. rewrite Hc, Hc0, Hd, Hd0.
  destruct (start cat diff (total (engine a)) now (engine a))
    as [r e1] eqn:Hst.
  cbn [fst snd] in *. subst r.
  assert (Hpe : pool e1 = pool (engine a)).
  { now rewrite Hp1, Hq, Hq0, Hpool, Hp0. }
  assert (Hte : total e1 = total (engine a)).
  { rewrite Ht1, Hpe, Hpool, Htot, Ht0. lia. }
  rewrite display_unfinished; cbn [engine with_engine];
    [| exact He1 | lia].
  cbn. repeat split; assumption.
Qed.

Lemma restart_same_quiz_witness :
  filter_pool (questions_all Examples.sample_engine) "Any" "Any" <> [] /\
  fst (_restart (Examples.t0 + 60)%Q (Examples.t0 + 60)%Q
         "2026-11-03 10:01:00" Examples.sample_app) = Returns tt /\
  total (engine (snd (_restart (Examples.t0 + 60)%Q (Examples.t0 + 60)%Q
                        "2026-11-03 10:01:00" Examples.sample_app)))
  = total (engine Examples.sample_app).
Proof.
  split; [discriminate|].
  destruct (restart_same_quiz Examples.sample_engine "Any" "Any" 3
              Examples.t0 [] Examples.sample_app (Examples.t0 + 60)%Q
              (Examples.t0 + 60)%Q "2026-11-03 10:01:00")
    as (Hr & _ & Ht & _); [discriminate | reflexivity |].
  split; [exact Hr | exact Ht].
Defined.

End AppFacts.
